(** * Week_PA2_sol.py: a menu-driven client for Redis sets

    A shallow embedding of [src/Week_PA2_sol.py] and the properties its
    specification states about it.

    The program talks to two outside parties: the console (it reads lines
    with [input] and writes lines with [print]) and a Redis server (through
    the redis-py methods [ping], [exists], [sadd], [srem], [smembers],
    [scard], [delete], [flushdb]).  Both are made explicit here:

    - the console is a list of pending input lines ([stdin]); reading from
      an exhausted console raises [EOFError], as [input] does;
    - the Redis database is a finite map from keys to finite sets of
      members, with the behaviour of the Redis set commands;
    - every prompt, every printed line and every Redis command together
      with its reply is appended to a chronological [log].

    Text is modelled by [string]; a character stands for a code point
    below 256.  The database holds sets only (the one kind of value the
    program writes), and their members are text the client can decode.
    A server that has answered the first [PING] answers every later
    command.  A connection lost in mid-session, a key that holds a value
    of another type and members that cannot be decoded are outside the
    model, and so are the exceptions redis-py raises for them: no property
    below is about which exceptions an operation can end with. *)

From Stdlib Require Import ZArith NArith Ascii String.
From stdpp Require Import base decidable option list gmap strings.

Local Open Scope Z_scope.

(** ** Text: [str.strip], [str.lower], [int] *)

Module Text.

(** [str.isspace] on one character (code points below 256): TAB, LF, VT,
    FF, CR, the separators 0x1C..0x1F, SPACE, NEL (0x85) and NBSP (0xA0). *)
Definition isspace (c : ascii) : bool :=
  let n := N_of_ascii c in
  ((9 <=? n) && (n <=? 13) || (28 <=? n) && (n <=? 32)
   || (n =? 133) || (n =? 160))%N.

Fixpoint lstrip (s : string) : string :=
  match s with
  | EmptyString => EmptyString
  | String c s' => if isspace c then lstrip s' else s
  end.

Fixpoint rstrip (s : string) : string :=
  match s with
  | EmptyString => EmptyString
  | String c s' =>
      match rstrip s' with
      | EmptyString => if isspace c then EmptyString else String c EmptyString
      | r => String c r
      end
  end.

(** [s.strip()] *)
Definition strip (s : string) : string := rstrip (lstrip s).

(** [str.lower] on one character: A-Z and the Latin-1 capitals 0xC0..0xDE
    (0xD7, the multiplication sign, excepted) move up by 32. *)
Definition lower_char (c : ascii) : ascii :=
  let n := N_of_ascii c in
  if ((65 <=? n) && (n <=? 90)
      || (192 <=? n) && (n <=? 222) && negb (n =? 215))%N
  then ascii_of_N (n + 32) else c.

(** [s.lower()] *)
Fixpoint lower (s : string) : string :=
  match s with
  | EmptyString => EmptyString
  | String c s' => String (lower_char c) (lower s')
  end.

Definition digit_of (c : ascii) : option Z :=
  let n := N_of_ascii c in
  if ((48 <=? n) && (n <=? 57))%N then Some (Z.of_N n - 48) else None.

(** The digits of a decimal literal: at least one digit, and single
    underscores allowed between two digits.  [after_digit] tells whether the
    previous character was a digit; the result is the value and the number
    of digits read. *)
Fixpoint int_digits (s : string) (acc : Z) (ndigits : nat) (after_digit : bool)
  : option (Z * nat) :=
  match s with
  | EmptyString => if after_digit then Some (acc, ndigits) else None
  | String c s' =>
      match digit_of c with
      | Some d => int_digits s' (10 * acc + d) (S ndigits) true
      | None =>
          if Ascii.eqb c "_" && after_digit
          then int_digits s' acc ndigits false
          else None
      end
  end.

(** CPython refuses to convert a decimal string of more than
    [sys.int_info.default_max_str_digits] digits, with [ValueError]. *)
Definition int_max_str_digits : nat := 4300.

Definition int_unsigned (s : string) : option Z :=
  match int_digits s 0 0%nat false with
  | Some (v, n) => if (int_max_str_digits <? n)%nat then None else Some v
  | None => None
  end.

(** [int(s)] in base 10: [None] stands for [ValueError].  Surrounding
    white space is dropped, then an optional sign, then the digits. *)
Definition int (s : string) : option Z :=
  match strip s with
  | String "+" s' => int_unsigned s'
  | String "-" s' => Z.opp <$> int_unsigned s'
  | s' => int_unsigned s'
  end.

End Text.

(** ** The Redis database *)

Module Redis.

(** A database: the keys that exist, each with its set of members. *)
Abbreviation store := (gmap string (gset string)).

(** The commands the client sends, named as Redis names them
    ([DEL] is redis-py's [delete]). *)
Inductive command :=
| PING
| EXISTS (key : string)
| SADD (key : string) (members : list string)
| SREM (key : string) (member : string)
| SMEMBERS (key : string)
| SCARD (key : string)
| DEL (key : string)
| FLUSHDB.

(** What redis-py hands back: [True] for [ping] and [flushdb], an integer,
    a set of members, or an error reply. *)
Inductive reply :=
| Ok
| Int (n : Z)
| Members (s : gset string)
| Error.

Global Instance command_eq_dec : EqDecision command.
Proof. solve_decision. Defined.
Global Instance reply_eq_dec : EqDecision reply.
Proof. solve_decision. Defined.

(** The members of the set at [key]; a missing key reads as the empty set. *)
Definition smembers (key : string) (st : store) : gset string :=
  default ∅ (st !! key).

Definition scard (key : string) (st : store) : Z :=
  Z.of_nat (size (smembers key st)).

(** [EXISTS key]: the number of the given keys that exist. *)
Definition exists_ (key : string) (st : store) : Z :=
  if decide (is_Some (st !! key)) then 1 else 0.

(** [SADD key m1 .. mn]: the set is created when missing; the reply counts
    the members that were not in the set before. *)
Definition sadd (key : string) (members : list string) (st : store)
  : Z * store :=
  let old := smembers key st in
  let new := old ∪ list_to_set members in
  (Z.of_nat (size new) - Z.of_nat (size old), <[key := new]> st).

(** [SREM key m]: replies 1 when [m] was a member; a set that becomes
    empty is removed together with its key. *)
Definition srem (key : string) (member : string) (st : store) : Z * store :=
  let old := smembers key st in
  if decide (member ∈ old) then
    let new := old ∖ {[member]} in
    (1, if decide (new = ∅) then delete key st else <[key := new]> st)
  else (0, st).

(** [DEL key]: the number of keys removed. *)
Definition del (key : string) (st : store) : Z * store :=
  if decide (is_Some (st !! key)) then (1, delete key st) else (0, st).

Definition flushdb (st : store) : store := ∅.

(** Redis never keeps an empty set. *)
Definition no_empty_set (st : store) : Prop :=
  ∀ key s, st !! key = Some s → s ≠ ∅.

End Redis.
Import Redis.

(** ** Console, log and the program monad *)

(** A piece of a printed line: literal text, an interpolated [str], an
    interpolated [int], an interpolated [bytes] (shown by its [repr]), or
    the current date and time. *)
Inductive frag :=
| Lit (s : string)
| Str (s : string)
| Num (n : Z)
| Bytes (b : string)
| Now.

Inductive event :=
| Prompt (prompt : string)              (* [input(prompt)] shows its prompt *)
| Print (line : list frag)              (* [print(...)] *)
| Call (c : command) (r : reply).       (* a Redis command and its reply *)

Global Instance frag_eq_dec : EqDecision frag.
Proof. solve_decision. Defined.
Global Instance event_eq_dec : EqDecision event.
Proof. solve_decision. Defined.

Record world := World {
  stdin : list string;       (* the lines the operator is going to type *)
  db : store;                (* the Redis database *)
  online : bool;             (* does the server answer [PING]? *)
  log : list event           (* what has happened so far, oldest first *)
}.

Inductive exn := EOFError | ConnectionError | ResponseError.

Global Instance exn_eq_dec : EqDecision exn.
Proof. solve_decision. Defined.

(** How a computation ends: normally, with an exception, or, for a loop
    that is run with a bound on its iterations, by exhausting the bound. *)
Inductive outcome (A : Type) :=
| Done (a : A) (w : world)
| Raised (e : exn) (w : world)
| OutOfFuel.
Arguments Done {A} a w.
Arguments Raised {A} e w.
Arguments OutOfFuel {A}.

Definition M (A : Type) : Type := world → outcome A.

Definition ret {A} (a : A) : M A := λ w, Done a w.

Definition bind {A B} (m : M A) (f : A → M B) : M B := λ w,
  match m w with
  | Done a w' => f a w'
  | Raised e w' => Raised e w'
  | OutOfFuel => OutOfFuel
  end.

Definition raise {A} (e : exn) : M A := λ w, Raised e w.

Definition out_of_fuel {A} : M A := λ _, OutOfFuel.

(** [try: m  except e: h] *)
Definition try_except {A} (m : M A) (e : exn) (h : M A) : M A := λ w,
  match m w with
  | Raised e' w' => if decide (e' = e) then h w' else Raised e' w'
  | o => o
  end.

Declare Scope prog_scope.
Delimit Scope prog_scope with prog.
Notation "x <- m ;; k" := (bind m (λ x, k))
  (at level 100, m at next level, k at level 200, right associativity)
  : prog_scope.
Notation "m ;; k" := (bind m (λ _, k))
  (at level 100, k at level 200, right associativity) : prog_scope.
Local Open Scope prog_scope.

Definition emit (e : event) (w : world) : world :=
  {| stdin := stdin w; db := db w; online := online w; log := log w ++ [e] |}.

(** [print(line)] *)
Definition print (line : list frag) : M unit := λ w,
  Done tt (emit (Print line) w).

(** [input(prompt)]: shows the prompt and takes the next line. *)
Definition input (prompt : string) : M string := λ w,
  match stdin w with
  | line :: rest =>
      Done line {| stdin := rest; db := db w; online := online w;
                   log := log w ++ [Prompt prompt] |}
  | [] => Raised EOFError (emit (Prompt prompt) w)
  end.

(** A Redis command that answers with [a] and leaves the database [st]. *)
Definition answered {A} (c : command) (show : A → reply) (res : A * store)
  : M A := λ w,
  Done res.1 {| stdin := stdin w; db := res.2; online := online w;
                log := log w ++ [Call c (show res.1)] |}.

Module r.
Definition ping : M unit := λ w,
  if online w then Done tt (emit (Call PING Ok) w)
  else Raised ConnectionError (emit (Call PING Error) w).
Definition exists_ (key : string) : M Z := λ w,
  answered (EXISTS key) Int (Redis.exists_ key (db w), db w) w.
(** [SADD] needs at least one member; the server refuses it otherwise. *)
Definition sadd (key : string) (members : list string) : M Z := λ w,
  match members with
  | [] => Raised ResponseError (emit (Call (SADD key members) Error) w)
  | _ => answered (SADD key members) Int (Redis.sadd key members (db w)) w
  end.
Definition srem (key member : string) : M Z := λ w,
  answered (SREM key member) Int (Redis.srem key member (db w)) w.
Definition smembers (key : string) : M (gset string) := λ w,
  answered (SMEMBERS key) Members (Redis.smembers key (db w), db w) w.
Definition scard (key : string) : M Z := λ w,
  answered (SCARD key) Int (Redis.scard key (db w), db w) w.
Definition delete (key : string) : M Z := λ w,
  answered (DEL key) Int (Redis.del key (db w)) w.
Definition flushdb : M unit := λ w,
  answered FLUSHDB (λ _, Ok) (tt, Redis.flushdb (db w)) w.
End r.

(** ** The program *)

Import Text.

(** [for x in l: body(x)] *)
Fixpoint for_each {A} (l : list A) (body : A → M unit) : M unit :=
  match l with
  | [] => ret tt
  | x :: l' => body x;; for_each l' body
  end.

(** What one pass through the body of a [while True] loop decides. *)
Inductive flow := Continue | Break.

(** [while True: body], run for at most [fuel] passes. *)
Fixpoint while_true (fuel : nat) (body : M flow) : M unit :=
  match fuel with
  | O => out_of_fuel
  | S fuel' =>
      f <- body;;
      match f with
      | Break => ret tt
      | Continue => while_true fuel' body
      end
  end.

Definition newline : string := String "010" EmptyString.

(** *** Helper functions *)

(** One pass of the loop of [get_int]: [inr value] is [return value],
    [inl tt] goes round again. *)
Definition get_int_pass (prompt : string) (min_value max_value : option Z)
  : M (unit + Z) :=
  user_input <- (line <- input prompt;; ret (strip line));;
  match int user_input with
  | Some value =>
      let check_max :=
        match max_value with
        | Some mx =>
            if value >? mx then
              print [Lit "Please enter a number <= "; Num mx; Lit "."];;
              ret (inl tt)
            else ret (inr value)
        | None => ret (inr value)
        end in
      match min_value with
      | Some mn =>
          if value <? mn then
            print [Lit "Please enter a number >= "; Num mn; Lit "."];;
            ret (inl tt)
          else check_max
      | None => check_max
      end
  | None =>
      print [Lit "Invalid input. Please enter a whole number."];;
      ret (inl tt)
  end.

Fixpoint get_int_loop (fuel : nat) (prompt : string)
    (min_value max_value : option Z) : M Z :=
  match fuel with
  | O => out_of_fuel
  | S fuel' =>
      res <- get_int_pass prompt min_value max_value;;
      match res with
      | inr value => ret value
      | inl _ => get_int_loop fuel' prompt min_value max_value
      end
  end.

(** Every pass takes one line from the console, so one pass more than
    there are lines left is enough: the loop ends by then, with a value or
    with [EOFError]. *)
Definition get_int (prompt : string) (min_value max_value : option Z) : M Z :=
  λ w, get_int_loop (S (length (stdin w))) prompt min_value max_value w.

Definition connect_to_redis : M unit :=
  print [Lit "Connecting to local Redis database..."];;
  try_except
    (r.ping;; print [Lit "Redis connection successful."])
    ConnectionError
    (print [Lit "ERROR: Could not connect to Redis. Make sure Redis is running."];;
     raise ConnectionError).

(** The members come back as a Python set; [elements] fixes the order in
    which it is walked.  Decoding is the identity on modelled text. *)
Definition format_members (members : gset string) : list string :=
  elements members.

(** *** CRUD operations (sets) *)

(** The [for _ in range(count)] loop of [create_new_set]; [None] means
    that the function returned from inside the loop. *)
Fixpoint collect_members (count : nat) (members : list string)
  : M (option (list string)) :=
  match count with
  | O => ret (Some members)
  | S count' =>
      member <- (line <- input "Enter the next member value: ";;
                 ret (strip line));;
      if decide (member = "") then
        print [Lit "Member cannot be empty. Try again."];;
        ret None
      else collect_members count' (members ++ [member])
  end.

Definition create_new_set : M unit :=
  key <- (line <- input "Enter the key you wish to add: ";; ret (strip line));;
  if decide (key = "") then print [Lit "Key cannot be empty."]
  else
    count <- get_int "Enter how many members will this set have: " (Some 1) None;;
    collected <- collect_members (Z.to_nat count) [];;
    match collected with
    | None => ret tt
    | Some members =>
        added <- r.sadd key members;;
        print [Lit "Set '"; Str key;
               Lit "' updated. Members added this operation: "; Num added];;
        card <- r.scard key;;
        print [Lit "The cardinality of the set is now: "; Num card]
    end.

Definition retrieve_set_members : M unit :=
  key <- (line <- input "Enter the key you wish to query: ";; ret (strip line));;
  if decide (key = "") then print [Lit "Key cannot be empty."]
  else
    found <- r.exists_ key;;
    if decide (found = 0) then
      print [Lit "Key '"; Str key; Lit "' does not exist."]
    else
      members <- r.smembers key;;
      let members_list := format_members members in
      print [Lit "Members of set '"; Str key; Lit "':"];;
      (if decide (length members_list = 0%nat) then
         print [Lit "(No members found)"]
       else
         for_each members_list (λ m, print [Lit "- "; Str m]));;
      card <- r.scard key;;
      print [Lit "The cardinality of the set is: "; Num card].

(** The [if]/[elif] chain of the sub-menu of [update_set_members].  The
    snapshot of the members is walked in the order of [elements], as in
    [format_members]. *)
Definition update_choice (key : string) (choice : Z) : M flow :=
  if decide (choice = 1) then
    member <- (line <- input "Enter the member value to add: ";;
               ret (strip line));;
    if decide (member = "") then
      print [Lit "Member cannot be empty."];; ret Continue
    else
      added <- r.sadd key [member];;
      (if decide (added = 1) then
         print [Lit "Added member '"; Str member; Lit "' to set '"; Str key;
                Lit "'."]
       else
         print [Lit "Member '"; Str member; Lit "' already existed in set '";
                Str key; Lit "'."]);;
      card <- r.scard key;;
      print [Lit "The cardinality of the set is now: "; Num card];;
      ret Continue
  else if decide (choice = 2) then
    member <- (line <- input "Enter the member value to remove: ";;
               ret (strip line));;
    if decide (member = "") then
      print [Lit "Member cannot be empty."];; ret Continue
    else
      removed <- r.srem key member;;
      (if decide (removed = 1) then
         print [Lit "Removed member '"; Str member; Lit "' from set '"; Str key;
                Lit "'."]
       else
         print [Lit "Member '"; Str member; Lit "' was not found in set '";
                Str key; Lit "'."]);;
      card <- r.scard key;;
      print [Lit "The cardinality of the set is now: "; Num card];;
      ret Continue
  else if decide (choice = 3) then
    print [Lit "Removing all set members..."];;
    members <- r.smembers key;;
    (if decide (members = ∅) then
       print [Lit "Set already has no members."]
     else
       for_each (elements members) (λ m,
         print [Lit "Removing Member: "; Bytes m; Lit "..."];;
         _ <- r.srem key m;;
         ret tt));;
    card <- r.scard key;;
    print [Lit "The cardinality of the set is now: "; Num card];;
    ret Continue
  else if decide (choice = 4) then
    print [Lit "Exiting Update Menu..."];;
    ret Break
  else ret Continue.

(** One pass through the sub-menu of [update_set_members]. *)
Definition update_menu (key : string) : M flow :=
  print [Lit newline;
         Lit "Please type in a number and press enter to execute the menu option"];;
  print [Lit "1. Add new member"];;
  print [Lit "2. Remove member"];;
  print [Lit "3. Remove all members"];;
  print [Lit "4. Exit Update Menu"];;
  choice <- get_int "Selection: " (Some 1) (Some 4);;
  update_choice key choice.

(** Every pass of the sub-menu takes at least one line (its selection), so
    one pass more than there are lines left is enough. *)
Definition update_set_members : M unit :=
  key <- (line <- input "Enter the key of the set you wish to update: ";;
          ret (strip line));;
  if decide (key = "") then print [Lit "Key cannot be empty."]
  else
    found <- r.exists_ key;;
    if decide (found = 0) then
      print [Lit "Key '"; Str key; Lit "' does not exist."]
    else
      λ w, while_true (S (length (stdin w))) (update_menu key) w.

Definition delete_set : M unit :=
  key <- (line <- input "Enter the key of the set you wish to delete: ";;
          ret (strip line));;
  if decide (key = "") then print [Lit "Key cannot be empty."]
  else
    deleted <- r.delete key;;
    if decide (deleted = 1) then
      print [Lit "Set '"; Str key; Lit "' deleted successfully."]
    else
      print [Lit "Key '"; Str key; Lit "' was not found."].

Definition delete_all_data : M unit :=
  confirm <- (line <- input "Are you sure you want to delete ALL data from the database? (y/n): ";;
              ret (lower (strip line)));;
  if decide (confirm = "y") then
    r.flushdb;;
    print [Lit "All data deleted from Redis database (FLUSHDB)."]
  else
    print [Lit "Delete all canceled."].

(** *** Main menu loop *)

(** The [if]/[elif] chain of the main menu. *)
Definition main_choice (selection : Z) : M flow :=
  if decide (selection = 1) then retrieve_set_members;; ret Continue
  else if decide (selection = 2) then create_new_set;; ret Continue
  else if decide (selection = 3) then update_set_members;; ret Continue
  else if decide (selection = 4) then delete_set;; ret Continue
  else if decide (selection = 5) then delete_all_data;; ret Continue
  else if decide (selection = 6) then
    print [Lit "Exiting program..."];; ret Break
  else ret Continue.

(** One pass through the main menu. *)
Definition main_menu : M flow :=
  print [Lit newline;
         Lit "Type in a number and press enter to execute the menu option."];;
  print [Lit "1. Query for set members"];;
  print [Lit "2. Add a new set"];;
  print [Lit "3. Update members of a set"];;
  print [Lit "4. Delete a set"];;
  print [Lit "5. Delete all data from the database"];;
  print [Lit "6. Exit the program"];;
  selection <- get_int "Selection: " (Some 1) (Some 6);;
  main_choice selection.

Definition main : M unit :=
  print [Lit "System Date/Time:"; Lit " "; Now];;
  connect_to_redis;;
  λ w, while_true (S (length (stdin w))) main_menu w.

(** ** Running the program on small inputs *)

Definition fresh (lines : list string) (st : store) : world :=
  {| stdin := lines; db := st; online := true; log := [] |}.

(** ** Vocabulary of the properties *)

(** A line made of white space only. *)
Fixpoint all_space (s : string) : bool :=
  match s with
  | EmptyString => true
  | String c s' => isspace c && all_space s'
  end.

(** The Redis commands in a log, with their replies, oldest first. *)
Definition calls (evs : list event) : list (command * reply) :=
  omap (λ e, match e with Call c r => Some (c, r) | _ => None end) evs.

(** [v] satisfies the bounds that were supplied to [get_int]. *)
Definition in_bounds (min_value max_value : option Z) (v : Z) : Prop :=
  (∀ m, min_value = Some m → m ≤ v) ∧ (∀ m, max_value = Some m → v ≤ m).

(** The line is no integer, or an integer outside the bounds. *)
Definition rejected (min_value max_value : option Z) (line : string) : Prop :=
  ∀ v, int (strip line) = Some v → ¬ in_bounds min_value max_value v.

(** What a query of an existing key adds to the log when the set at the key
    is [s]: the prompt, the existence check, the members fetched, one line
    per member, and the cardinality. *)
Definition query_events (key : string) (s : gset string) : list event :=
  [Prompt "Enter the key you wish to query: ";
   Call (EXISTS key) (Int 1);
   Call (SMEMBERS key) (Members s);
   Print [Lit "Members of set '"; Str key; Lit "':"]]
  ++ (if decide (s = ∅) then [Print [Lit "(No members found)"]]
      else (λ m, Print [Lit "- "; Str m]) <$> elements s)
  ++ [Call (SCARD key) (Int (Z.of_nat (size s)));
      Print [Lit "The cardinality of the set is: "; Num (Z.of_nat (size s))]].

(** The world after the events [evs], with [lines] left to read and the
    database [st']. *)
Definition after (w : world) (lines : list string) (st' : store)
    (evs : list event) : world :=
  {| stdin := lines; db := st'; online := online w; log := log w ++ evs |}.

(** What removing the members [l] of the set at [key] one by one adds to
    the log: for each member its announcement and one [SREM] that replies 1. *)
Definition remove_events (key : string) (l : list string) : list event :=
  flat_map (λ m, [Print [Lit "Removing Member: "; Bytes m; Lit "..."];
                  Call (SREM key m) (Int 1)]) l.

(** *** Invariants of the traffic with Redis *)

(** The key whose set a command reads or changes.  [EXISTS] only asks
    whether the key is there; [PING] and [FLUSHDB] name no key. *)
Definition target (c : command) : option string :=
  match c with
  | SADD key _ | SREM key _ | SMEMBERS key | SCARD key | DEL key => Some key
  | EXISTS _ | PING | FLUSHDB => None
  end.

(** The command carries no empty key and no empty member. *)
Definition well_formed (c : command) : Prop :=
  match c with
  | PING | FLUSHDB => True
  | EXISTS key | SMEMBERS key | SCARD key | DEL key => key ≠ ""
  | SADD key members => key ≠ "" ∧ Forall (λ m, m ≠ "") members
  | SREM key member => key ≠ "" ∧ member ≠ ""
  end.

(** No command sent so far carries an empty key or an empty member. *)
Definition clean_log (evs : list event) : Prop :=
  Forall (λ cr, well_formed cr.1) (calls evs).

(** No set of the database has the empty string among its members. *)
Definition no_blank_member (st : store) : Prop :=
  ∀ key s, st !! key = Some s → "" ∉ s.

(** Among the commands [cs] is an [EXISTS key] that found the key. *)
Definition confirmed (key : string) (cs : list (command * reply)) : Prop :=
  ∃ n, n ≠ 0 ∧ (EXISTS key, Int n) ∈ cs.

(** Every command that acts on a key comes after an [EXISTS] of that key
    that found it. *)
Definition guarded (evs : list event) : Prop :=
  ∀ pre c r post key,
    calls evs = pre ++ (c, r) :: post → target c = Some key →
    confirmed key pre.

(** The world in which a computation ends, normally or by an exception. *)
Definition ending {A} (o : outcome A) : option world :=
  match o with
  | Done _ w | Raised _ w => Some w
  | OutOfFuel => None
  end.

(** The five operations of the menu, and the program as a whole. *)
Definition operations : list (M unit) :=
  [retrieve_set_members; create_new_set; update_set_members; delete_set;
   delete_all_data; main].

(** *** Tools for reasoning about runs *)

(** [wp m Q E w]: run from [w], [m] ends normally in a world and with a
    result that satisfy [Q], or with an exception in a world that
    satisfies [E].  Nothing is asked of a run that exhausts the bound of a
    loop; [lands] below is there to show that no run does. *)
Definition wp {A} (m : M A) (Q : A → world → Prop) (E : world → Prop)
    (w : world) : Prop :=
  match m w with
  | Done a w' => Q a w'
  | Raised _ w' => E w'
  | OutOfFuel => True
  end.

(** From [w] to [w'] lines were read, prompts shown and lines printed, and
    nothing else: no command was sent, the database is the same. *)
Definition quiet (w w' : world) : Prop :=
  db w' = db w ∧ online w' = online w ∧
  ∃ evs, log w' = log w ++ evs ∧ calls evs = [].

(** [triple P m Q E]: from a world that satisfies [P], [m] ends normally
    with [Q] or with an exception in a world that satisfies [E]. *)
Definition triple {A} (P : world → Prop) (m : M A)
    (Q : A → world → Prop) (E : world → Prop) : Prop :=
  ∀ w, P w → wp m Q E w.

(** A property of worlds that reading and printing cannot disturb. *)
Definition stable (P : world → Prop) : Prop :=
  ∀ w w', quiet w w' → P w → P w'.

(** The first invariant: the log shows no command with an empty key or
    member, and the database holds no empty member. *)
Definition tidy (w : world) : Prop :=
  clean_log (log w) ∧ no_blank_member (db w).

(** The second invariant inside an operation on [key]: the log is guarded
    and the key has been confirmed. *)
Definition guarded_at (key : string) (w : world) : Prop :=
  guarded (log w) ∧ confirmed key (calls (log w)).

(** [lands k m]: whatever the world, [m] comes to an end within the bounds
    of its loops, and when it ends normally it has taken at least [k]
    lines from the console and put none back. *)
Definition lands {A} (k : nat) (m : M A) : Prop :=
  ∀ w,
    match m w with
    | Done _ w' => (length (stdin w') + k ≤ length (stdin w))%nat
    | Raised _ _ => True
    | OutOfFuel => False
    end.

(** *** Looking at the console through [strip] *)

(** Two worlds that differ at most in white space around the lines still
    to be read. *)
Definition alike (w1 w2 : world) : Prop :=
  strip <$> stdin w1 = strip <$> stdin w2 ∧
  db w1 = db w2 ∧ online w1 = online w2 ∧ log w1 = log w2.

Definition same_outcome {A} (o1 o2 : outcome A) : Prop :=
  match o1, o2 with
  | Done a1 w1, Done a2 w2 => a1 = a2 ∧ alike w1 w2
  | Raised e1 w1, Raised e2 w2 => e1 = e2 ∧ alike w1 w2
  | OutOfFuel, OutOfFuel => True
  | _, _ => False
  end.

(** [m] cannot tell two alike worlds apart. *)
Definition strip_blind {A} (m : M A) : Prop :=
  ∀ w1 w2, alike w1 w2 → same_outcome (m w1) (m w2).

(** The world with every pending line stripped beforehand. *)
Definition stripped (w : world) : world :=
  {| stdin := strip <$> stdin w; db := db w; online := online w;
     log := log w |}.

(** The world with other lines to read. *)
Definition typing (lines : list string) (w : world) : world :=
  {| stdin := lines; db := db w; online := online w; log := log w |}.

(** The database after the members [l] have been removed from the set at
    [key] one after the other. *)
Definition srem_each (key : string) (st : store) (l : list string) : store :=
  foldl (λ st m, (srem key m st).2) st l.

(** [yields m Q ok]: whatever the world, a result of [m] satisfies [Q] and
    an exception of [m] is one of those [ok] allows. *)
Definition yields {A} (m : M A) (Q : A → Prop) (ok : exn → Prop) : Prop :=
  ∀ w,
    match m w with
    | Done a _ => Q a
    | Raised e _ => ok e
    | OutOfFuel => True
    end.

(** *** Which commands an operation may send *)

(** The name of a command. *)
Definition verb (c : command) : string :=
  match c with
  | PING => "PING"
  | EXISTS _ => "EXISTS"
  | SADD _ _ => "SADD"
  | SREM _ _ => "SREM"
  | SMEMBERS _ => "SMEMBERS"
  | SCARD _ => "SCARD"
  | DEL _ => "DEL"
  | FLUSHDB => "FLUSHDB"
  end.

(** All commands in the log are among [names]. *)
Definition sent_only (names : list string) (evs : list event) : Prop :=
  Forall (λ cr, verb cr.1 ∈ names) (calls evs).

(** The operations of the menu, each with the commands its code calls. *)
Definition footprint : list (M unit * list string) :=
  [(retrieve_set_members, ["EXISTS"; "SMEMBERS"; "SCARD"]);
   (create_new_set, ["SADD"; "SCARD"]);
   (update_set_members, ["EXISTS"; "SADD"; "SREM"; "SMEMBERS"; "SCARD"]);
   (delete_set, ["DEL"]);
   (delete_all_data, ["FLUSHDB"])].

(** Every command among the events [evs] satisfies [φ]. *)
Definition sends (φ : command → Prop) (evs : list event) : Prop :=
  Forall (λ cr, φ cr.1) (calls evs).

(** The log of [w] is [lg0] followed by events whose commands satisfy [φ]. *)
Definition added (φ : command → Prop) (lg0 : list event) (w : world) : Prop :=
  ∃ evs, log w = lg0 ++ evs ∧ sends φ evs.

(** The command is one of [names]. *)
Definition named (names : list string) (c : command) : Prop :=
  verb c ∈ names.

(** An [SADD] comes with at least one member. *)
Definition has_members (c : command) : Prop :=
  match c with
  | SADD _ members => members ≠ []
  | _ => True
  end.

(** ** Sample runs of the text functions *)

Example strip_ex : Text.strip "  a b
 " = "a b".
Proof. reflexivity. Qed.
Example int_ex1 : Text.int "1_000" = Some 1000. Proof. reflexivity. Qed.
Example int_ex2 : Text.int "-12" = Some (-12). Proof. reflexivity. Qed.
Example int_ex3 : Text.int "1__0" = None. Proof. reflexivity. Qed.
Example int_ex4 : Text.int "+" = None. Proof. reflexivity. Qed.
Example int_ex5 : Text.int "" = None. Proof. reflexivity. Qed.
Example int_ex6 : Text.int "4x" = None. Proof. reflexivity. Qed.
Example lower_ex : Text.lower "Y" = "y". Proof. reflexivity. Qed.

(** ** Facts about text *)

Module TextFacts.
Import Text.

Lemma lstrip_all_space s : all_space s = true → lstrip s = "".
Proof.
  induction s as [|c s IH]; simpl; [done|].
  intros [Hc Hs]%andb_true_iff. rewrite Hc. auto.
Qed.

Lemma lstrip_head s :
  match lstrip s with
  | EmptyString => all_space s = true
  | String c _ => isspace c = false
  end.
Proof.
  induction s as [|c s IH]; simpl; [done|].
  destruct (isspace c) eqn:Hc; simpl; [|by rewrite Hc].
  destruct (lstrip s); auto.
Qed.

Lemma rstrip_rstrip s : rstrip (rstrip s) = rstrip s.
Proof.
  induction s as [|c s IH]; simpl; [done|].
  destruct (rstrip s) as [|d r] eqn:Hr.
  - destruct (isspace c) eqn:Hc; simpl; [done|]. by rewrite Hc.
  - simpl in *. by rewrite IH.
Qed.

(** A string that does not start with white space still does not after
    [rstrip]. *)
Lemma lstrip_rstrip_fixed s : lstrip s = s → lstrip (rstrip s) = rstrip s.
Proof.
  destruct s as [|c s]; simpl; [done|].
  destruct (isspace c) eqn:Hc.
  - intros Heq. pose proof (lstrip_head s) as Hh. rewrite Heq in Hh.
    congruence.
  - intros _. destruct (rstrip s); simpl; by rewrite Hc.
Qed.

Lemma lstrip_lstrip s : lstrip (lstrip s) = lstrip s.
Proof.
  induction s as [|c s IH]; simpl; [done|].
  destruct (isspace c) eqn:Hc; [done|]. simpl. by rewrite Hc.
Qed.

Lemma strip_strip s : strip (strip s) = strip s.
Proof.
  unfold strip.
  rewrite (lstrip_rstrip_fixed (lstrip s)) by apply lstrip_lstrip.
  apply rstrip_rstrip.
Qed.

Lemma strip_all_space s : all_space s = true → strip s = "".
Proof. intros H. unfold strip. by rewrite lstrip_all_space. Qed.

Lemma rstrip_empty s : rstrip s = "" → all_space s = true.
Proof.
  induction s as [|c s IH]; simpl; [done|].
  destruct (rstrip s) eqn:Hr; [|done].
  destruct (isspace c); [|done]. intros _. by rewrite IH.
Qed.

Lemma strip_empty s : strip s = "" → all_space s = true.
Proof.
  unfold strip. intros H%rstrip_empty.
  pose proof (lstrip_head s) as Hh.
  destruct (lstrip s) as [|c r]; [done|].
  simpl in H. by rewrite Hh in H.
Qed.

(** [int] looks at its argument through [strip] only. *)
Lemma int_strip s : int (strip s) = int s.
Proof. unfold int. by rewrite strip_strip. Qed.

Lemma lower_is_y s : lower s = "y" ↔ s = "y" ∨ s = "Y".
Proof.
  split.
  - destruct s as [|c [|d s]]; simpl; try done.
    intros [= Hc].
    destruct c as [[] [] [] [] [] [] [] []]; vm_compute in Hc; try done; auto.
  - by intros [-> | ->].
Qed.

End TextFacts.

Arguments Text.strip : simpl never.
Arguments Text.int : simpl never.
Arguments Text.lower : simpl never.

(** ** Running a program step by step *)

Arguments ret {A} a _ /.
Arguments bind {A B} m f _ /.
Arguments raise {A} e _ /.
Arguments try_except {A} m e h _ /.
Arguments emit e w /.
Arguments print line _ /.
Arguments input prompt _ /.
Arguments answered {A} c show res _ /.
Arguments r.ping _ /.
Arguments r.exists_ key _ /.
Arguments r.srem key member _ /.
Arguments r.smembers key _ /.
Arguments r.scard key _ /.
Arguments r.delete key _ /.
Arguments r.flushdb _ /.

Ltac run :=
  cbn [bind ret raise print input emit answered try_except
       r.ping r.exists_ r.srem r.smembers r.scard r.delete r.flushdb
       stdin db online log fst snd].

Lemma r_sadd_some key members w :
  members ≠ [] →
  r.sadd key members w
  = Done (sadd key members (db w)).1
      {| stdin := stdin w; db := (sadd key members (db w)).2;
         online := online w;
         log := log w ++ [Call (SADD key members)
                            (Int (sadd key members (db w)).1)] |}.
Proof. by destruct members. Qed.

Lemma bind_done {A B} (m : M A) (f : A → M B) w a w' :
  m w = Done a w' → bind m f w = f a w'.
Proof. unfold bind. by intros ->. Qed.

Lemma bind_raised {A B} (m : M A) (f : A → M B) w e w' :
  m w = Raised e w' → bind m f w = Raised e w'.
Proof. unfold bind. by intros ->. Qed.

Lemma bind_inv {A B} (m : M A) (f : A → M B) w b w2 :
  bind m f w = Done b w2 → ∃ a w1, m w = Done a w1 ∧ f a w1 = Done b w2.
Proof. unfold bind. destruct (m w) as [a w1| |]; [eauto|done..]. Qed.

Lemma calls_app evs1 evs2 : calls (evs1 ++ evs2) = calls evs1 ++ calls evs2.
Proof. apply omap_app. Qed.

Lemma calls_replicate_prompt n p : calls (replicate n (Prompt p)) = [].
Proof. induction n; [done|]. by cbn. Qed.

(** ** The bounded-integer reader *)

Section get_int.
Context (prompt : string) (min_value max_value : option Z).

Lemma get_int_pass_eof st on lg :
  get_int_pass prompt min_value max_value (World [] st on lg)
  = Raised EOFError (World [] st on (lg ++ [Prompt prompt])).
Proof. reflexivity. Qed.

Lemma get_int_pass_accept line rest st on lg v :
  int (strip line) = Some v → in_bounds min_value max_value v →
  get_int_pass prompt min_value max_value (World (line :: rest) st on lg)
  = Done (inr v) (World rest st on (lg ++ [Prompt prompt])).
Proof.
  intros Hint [Hmin Hmax]. unfold get_int_pass. run. rewrite Hint.
  destruct min_value as [mn|], max_value as [mx|];
    repeat match goal with
    | |- context [?a <? ?b] => destruct (Z.ltb_spec a b)
    | |- context [?a >? ?b] => destruct (Z.gtb_spec a b)
    end; run; try done.
  all: try (specialize (Hmin _ eq_refl)); try (specialize (Hmax _ eq_refl)); lia.
Qed.

Lemma get_int_pass_reject line rest st on lg :
  rejected min_value max_value line →
  ∃ msg,
    get_int_pass prompt min_value max_value (World (line :: rest) st on lg)
    = Done (inl tt) (World rest st on (lg ++ [Prompt prompt; Print msg])).
Proof.
  intros Hrej. unfold get_int_pass. run.
  destruct (int (strip line)) as [v|] eqn:Hint; run;
    [|rewrite <- app_assoc; eauto].
  specialize (Hrej v Hint). unfold in_bounds in Hrej.
  destruct min_value as [mn|], max_value as [mx|];
    repeat match goal with
    | |- context [?a <? ?b] => destruct (Z.ltb_spec a b)
    | |- context [?a >? ?b] => destruct (Z.gtb_spec a b)
    end; run; try (rewrite <- app_assoc; eauto).
  all: exfalso; apply Hrej; split; intros ? [= <-]; lia.
Qed.

(** Any line is accepted with its value or rejected. *)
Lemma accept_or_reject line :
  (∃ v, int (strip line) = Some v ∧ in_bounds min_value max_value v) ∨ rejected min_value max_value line.
Proof.
  unfold rejected, in_bounds.
  destruct (int (strip line)) as [v|]; [|right; by intros ? [=]].
  destruct min_value as [mn|], max_value as [mx|].
  - destruct (decide (mn ≤ v ∧ v ≤ mx)) as [[??]|Hn].
    + left. exists v. repeat split; by intros ? [= <-].
    + right. intros ? [= <-] [H1 H2]. apply Hn. eauto.
  - destruct (decide (mn ≤ v)) as [?|Hn].
    + left. exists v. repeat split; by intros ? [= <-].
    + right. intros ? [= <-] [H1 H2]. apply Hn. eauto.
  - destruct (decide (v ≤ mx)) as [?|Hn].
    + left. exists v. repeat split; by intros ? [= <-].
    + right. intros ? [= <-] [H1 H2]. apply Hn. eauto.
  - left. exists v. repeat split; by intros ? [= <-].
Qed.

Lemma get_int_eof st on lg :
  get_int prompt min_value max_value (World [] st on lg)
  = Raised EOFError (World [] st on (lg ++ [Prompt prompt])).
Proof. reflexivity. Qed.

Lemma get_int_accept line rest st on lg v :
  int (strip line) = Some v → in_bounds min_value max_value v →
  get_int prompt min_value max_value (World (line :: rest) st on lg)
  = Done v (World rest st on (lg ++ [Prompt prompt])).
Proof.
  intros Hint Hb. unfold get_int. cbn [stdin length get_int_loop].
  by rewrite (bind_done _ _ _ _ _ (get_int_pass_accept _ _ _ _ _ _ Hint Hb)).
Qed.

Lemma get_int_reject line rest st on lg :
  rejected min_value max_value line →
  ∃ msg,
    get_int prompt min_value max_value (World (line :: rest) st on lg)
    = get_int prompt min_value max_value
        (World rest st on (lg ++ [Prompt prompt; Print msg])).
Proof.
  intros Hrej.
  destruct (get_int_pass_reject line rest st on lg Hrej) as [msg Hpass].
  exists msg. unfold get_int at 1. cbn [stdin length get_int_loop].
  by rewrite (bind_done _ _ _ _ _ Hpass).
Qed.

(** What a returning call has done: it has skipped a run of rejected
    lines, taken the first acceptable one, and touched nothing but the
    console and the log. *)
Lemma get_int_inv w v w' :
  get_int prompt min_value max_value w = Done v w' →
  ∃ bad line,
    stdin w = bad ++ line :: stdin w' ∧ Forall (rejected min_value max_value) bad ∧
    int (strip line) = Some v ∧ in_bounds min_value max_value v ∧
    db w' = db w ∧ online w' = online w ∧
    ∃ evs, log w' = log w ++ evs ∧ calls evs = [].
Proof.
  destruct w as [inp st on lg]. revert lg.
  induction inp as [|l inp IH]; intros lg; [by rewrite get_int_eof|].
  destruct (accept_or_reject l) as [(u & Hint & Hb)|Hrej].
  - rewrite (get_int_accept _ _ _ _ _ _ Hint Hb). intros [= <- <-].
    exists [], l. cbn. repeat split; try done; try apply Hb.
    by exists [Prompt prompt].
  - destruct (get_int_reject l inp st on lg Hrej) as [msg ->].
    intros (bad & line & Hin & Hbad & Hint & Hb & Hdb & Hon & evs & Hlog & Hev)%IH.
    cbn in *. exists (l :: bad), line. rewrite Hin.
    repeat split; try done; try apply Hb; [by constructor|].
    exists ([Prompt prompt; Print msg] ++ evs). rewrite Hlog, app_assoc.
    split; [done|]. by rewrite calls_app, Hev.
Qed.

Lemma get_int_bounds w v w' :
  get_int prompt min_value max_value w = Done v w' → in_bounds min_value max_value v.
Proof. intros (?&?&?&?&?&?&?)%get_int_inv. done. Qed.

(** The reader never exhausts its bound. *)
Lemma get_int_total w : get_int prompt min_value max_value w ≠ OutOfFuel.
Proof.
  destruct w as [inp st on lg]. revert lg.
  induction inp as [|l inp IH]; intros lg; [by rewrite get_int_eof|].
  destruct (accept_or_reject l) as [(u & Hint & Hb)|Hrej].
  - by rewrite (get_int_accept _ _ _ _ _ _ Hint Hb).
  - destruct (get_int_reject l inp st on lg Hrej) as [msg ->]. apply IH.
Qed.

(** With nothing but rejected min_value max_value lines on the console the reader asks for
    each of them and then meets the end of the input. *)
Lemma get_int_all_rejected w :
  Forall (rejected min_value max_value) (stdin w) →
  ∃ w', get_int prompt min_value max_value w = Raised EOFError w'.
Proof.
  destruct w as [inp st on lg]. cbn [stdin]. revert lg.
  induction inp as [|l inp IH]; intros lg Hall; [by eexists|].
  apply Forall_cons in Hall as [Hl Hall].
  destruct (get_int_reject l inp st on lg Hl) as [msg ->]. by apply IH.
Qed.

End get_int.

(** ** Facts about the Redis commands *)

Module RedisFacts.

Lemma smembers_lookup key st s : st !! key = Some s → smembers key st = s.
Proof. unfold smembers. by intros ->. Qed.

Lemma smembers_absent key st : st !! key = None → smembers key st = ∅.
Proof. unfold smembers. by intros ->. Qed.

Lemma smembers_insert key s st : smembers key (<[key := s]> st) = s.
Proof. unfold smembers. by rewrite lookup_insert_eq. Qed.

Lemma smembers_insert_ne key key' s st :
  key ≠ key' → smembers key' (<[key := s]> st) = smembers key' st.
Proof. intros. unfold smembers. by rewrite lookup_insert_ne. Qed.

Lemma smembers_delete key st : smembers key (delete key st) = ∅.
Proof. unfold smembers. by rewrite lookup_delete_eq. Qed.

Lemma exists_insert key s st : exists_ key (<[key := s]> st) = 1.
Proof.
  unfold exists_. rewrite lookup_insert_eq.
  destruct (decide _) as [|[]]; eauto.
Qed.

Lemma exists_present key st : is_Some (st !! key) → exists_ key st = 1.
Proof. intros. unfold exists_. by destruct (decide _). Qed.

Lemma exists_absent key st : st !! key = None → exists_ key st = 0.
Proof.
  intros H. unfold exists_. destruct (decide _) as [[? Hs]|]; [|done].
  congruence.
Qed.

(** The number [SADD] replies: the batch as a set, less the members that
    were there already. *)
Lemma sadd_reply key members st :
  (sadd key members st).1
  = Z.of_nat (size (list_to_set members ∖ smembers key st : gset string)).
Proof.
  unfold sadd. cbn [fst].
  set (old := smembers key st). set (new := list_to_set members : gset string).
  assert (old ∪ new = old ∪ (new ∖ old)) as ->.
  { apply set_eq. intros x. rewrite !elem_of_union, elem_of_difference.
    destruct (decide (x ∈ old)); tauto. }
  rewrite size_union by (intros x ? [? ?]%elem_of_difference; done).
  lia.
Qed.

Lemma srem_present key member st :
  member ∈ smembers key st →
  (srem key member st).1 = 1 ∧
  smembers key (srem key member st).2 = smembers key st ∖ {[member]} ∧
  scard key (srem key member st).2 = scard key st - 1 ∧
  ∀ key', key' ≠ key → (srem key member st).2 !! key' = st !! key'.
Proof.
  intros Hin. unfold srem, scard. rewrite decide_True by done. cbn [fst snd].
  assert (smembers key
            (if decide (smembers key st ∖ {[member]} = ∅) then delete key st
             else <[key := smembers key st ∖ {[member]}]> st)
          = smembers key st ∖ {[member]}) as Hs.
  { destruct (decide _) as [He|]; [|apply smembers_insert].
    by rewrite smembers_delete, He. }
  rewrite Hs. repeat split; [|].
  - rewrite size_difference by (by apply singleton_subseteq_l).
    rewrite size_singleton.
    assert (size (smembers key st) ≠ 0%nat).
    { intros Hz%size_empty_inv. apply (Hz member) in Hin.
      by apply not_elem_of_empty in Hin. }
    lia.
  - intros key' Hne. destruct (decide _).
    + by rewrite lookup_delete_ne.
    + by rewrite lookup_insert_ne.
Qed.

Lemma srem_absent key member st :
  member ∉ smembers key st → srem key member st = (0, st).
Proof. intros. unfold srem. by rewrite decide_False. Qed.

Lemma smembers_elem key st m :
  m ∈ smembers key st → st !! key = Some (smembers key st).
Proof.
  unfold smembers. destruct (st !! key); cbn; [done|].
  by intros ?%not_elem_of_empty.
Qed.

Lemma smembers_nonempty key st :
  smembers key st ≠ ∅ → st !! key = Some (smembers key st).
Proof. unfold smembers. by destruct (st !! key). Qed.

(** Adding a member that is there already changes nothing. *)
Lemma sadd_present key member st :
  member ∈ smembers key st → sadd key [member] st = (0, st).
Proof.
  intros Hin. unfold sadd. cbn [list_to_set].
  assert (smembers key st ∪ ({[member]} ∪ ∅) = smembers key st) as ->.
  { apply set_eq. intros x.
    rewrite !elem_of_union, elem_of_singleton, elem_of_empty.
    split; [intros [?|[->|[]]]; done|auto]. }
  f_equal; [lia|]. by apply insert_id, (smembers_elem _ _ member).
Qed.

Lemma srem_lookup key member st :
  member ∈ smembers key st →
  (srem key member st).2 !! key
  = if decide (smembers key st ∖ {[member]} = ∅) then None
    else Some (smembers key st ∖ {[member]}).
Proof.
  intros Hin. unfold srem. rewrite decide_True by done. cbn [snd].
  destruct (decide _).
  - apply lookup_delete_eq.
  - apply lookup_insert_eq.
Qed.

(** The commands keep the database free of empty sets, as Redis does. *)
Lemma no_empty_set_kept st :
  no_empty_set st →
  (∀ key members, members ≠ [] → no_empty_set (sadd key members st).2) ∧
  (∀ key member, no_empty_set (srem key member st).2) ∧
  (∀ key, no_empty_set (del key st).2) ∧
  no_empty_set (flushdb st).
Proof.
  intros Hst. repeat split.
  - intros key members Hms k s. unfold sadd. cbn [snd].
    destruct (decide (key = k)) as [->|Hk].
    + rewrite lookup_insert_eq. intros [= <-] Hempty.
      destruct members as [|m members]; [done|].
      assert (m ∈ smembers k st ∪ list_to_set (m :: members)) as Hin.
      { apply elem_of_union. right. apply elem_of_list_to_set. by left. }
      rewrite Hempty in Hin. by apply not_elem_of_empty in Hin.
    + rewrite lookup_insert_ne by done. apply Hst.
  - intros key member k s. unfold srem.
    destruct (decide (member ∈ _)); [|apply Hst]. cbn [snd].
    destruct (decide (_ = ∅)) as [|Hne].
    + intros [_ Hs]%lookup_delete_Some. by apply (Hst k).
    + destruct (decide (key = k)) as [->|Hk].
      * rewrite lookup_insert_eq. by intros [= <-].
      * rewrite lookup_insert_ne by done. apply Hst.
  - intros key k s. unfold del. destruct (decide _); [|apply Hst]. cbn [snd].
    intros [_ Hs]%lookup_delete_Some. by apply (Hst k).
  - by intros k s.
Qed.

End RedisFacts.
Import RedisFacts.

(** A run of rejected lines costs the reader prompts and complaints only. *)
Lemma get_int_skip prompt mn mx bad rest st on lg :
  Forall (rejected mn mx) bad →
  ∃ evs, calls evs = [] ∧
    get_int prompt mn mx (World (bad ++ rest) st on lg)
    = get_int prompt mn mx (World rest st on (lg ++ evs)).
Proof.
  revert lg. induction bad as [|l bad IH]; intros lg Hbad.
  - exists []. by rewrite app_nil_r.
  - apply Forall_cons in Hbad as [Hl Hbad].
    destruct (get_int_reject prompt mn mx l (bad ++ rest) st on lg Hl)
      as [msg Heq].
    destruct (IH (lg ++ [Prompt prompt; Print msg]) Hbad) as (evs & Hc & Heq').
    exists ([Prompt prompt; Print msg] ++ evs). split.
    + by rewrite calls_app, Hc.
    + cbn [app] in *. rewrite Heq, Heq'. by rewrite <- app_assoc.
Qed.

(** ** The create-set flow *)

Section create.
Context (st : store) (on : bool).

Lemma for_each_print {A} (f : A → list frag) l inp lg :
  for_each l (λ x, print (f x)) (World inp st on lg)
  = Done tt (World inp st on (lg ++ (Print ∘ f <$> l))).
Proof.
  revert lg. induction l as [|x l IH]; intros lg; cbn [for_each fmap list_fmap].
  - by rewrite app_nil_r.
  - run. rewrite IH. by rewrite <- app_assoc.
Qed.

(** All [count] members are given: they are collected in the order in
    which they were typed. *)
Lemma collect_members_all mlines rest lg acc :
  Forall (λ l, strip l ≠ "") mlines →
  collect_members (length mlines) acc (World (mlines ++ rest) st on lg)
  = Done (Some (acc ++ (strip <$> mlines)))
      (World rest st on
         (lg ++ replicate (length mlines) (Prompt "Enter the next member value: "))).
Proof.
  revert lg acc. induction mlines as [|l mlines IH]; intros lg acc Hne.
  - cbn. by rewrite !app_nil_r.
  - apply Forall_cons in Hne as [Hl Hne].
    cbn [length collect_members app]. run. rewrite decide_False by done.
    rewrite IH by done. cbn [fmap list_fmap replicate].
    by rewrite <- !app_assoc.
Qed.

(** A blank member among the [count] asked for: the loop stops there. *)
Lemma collect_members_abort pre e post count lg acc :
  Forall (λ l, strip l ≠ "") pre → strip e = "" →
  (length pre < count)%nat →
  collect_members count acc (World (pre ++ e :: post) st on lg)
  = Done None
      (World post st on
         (lg ++ replicate (S (length pre)) (Prompt "Enter the next member value: ")
             ++ [Print [Lit "Member cannot be empty. Try again."]])).
Proof.
  revert lg acc count. induction pre as [|l pre IH]; intros lg acc count Hne He Hlt.
  - destruct count as [|count]; [cbn in Hlt; lia|].
    cbn [length collect_members app]. run. rewrite decide_True by done.
    run. cbn [replicate]. by rewrite <- app_assoc.
  - apply Forall_cons in Hne as [Hl Hne].
    destruct count as [|count]; [cbn in Hlt; lia|].
    cbn [length collect_members app]. run. rewrite decide_False by done.
    rewrite IH by (done || cbn in Hlt; lia).
    cbn [replicate]. by rewrite <- !app_assoc.
Qed.

(** The first blank line at or before position [i]. *)
Lemma first_blank (lines : list string) i e :
  lines !! i = Some e → strip e = "" →
  ∃ pre e' post,
    lines = pre ++ e' :: post ∧ Forall (λ l, strip l ≠ "") pre ∧
    strip e' = "" ∧ (length pre ≤ i)%nat.
Proof.
  revert i. induction lines as [|l lines IH]; intros i Hi He; [done|].
  destruct (decide (strip l = "")) as [Hl|Hl].
  - exists [], l, lines. repeat split; [done..|cbn; lia].
  - destruct i as [|i]; [cbn in Hi; congruence|].
    destruct (IH i Hi He) as (pre & e' & post & -> & Hpre & He' & Hlen).
    exists (l :: pre), e', post. repeat split; [by constructor|done|cbn; lia].
Qed.

(** The flow with everything in order: the key, some rejected counts, the
    count, and that many members. *)
Lemma create_new_set_adds kline bad nline mlines rest lg n :
  strip kline ≠ "" → Forall (rejected (Some 1) None) bad →
  int (strip nline) = Some n → 1 ≤ n → length mlines = Z.to_nat n →
  Forall (λ l, strip l ≠ "") mlines →
  let key := strip kline in
  let members := strip <$> mlines in
  ∃ evs, calls evs = [] ∧
    create_new_set (World (kline :: bad ++ nline :: mlines ++ rest) st on lg)
    = Done tt
        (World rest (sadd key members st).2 on
           (lg ++ evs ++
              [Call (SADD key members) (Int (sadd key members st).1);
               Print [Lit "Set '"; Str key;
                      Lit "' updated. Members added this operation: ";
                      Num (sadd key members st).1];
               Call (SCARD key) (Int (scard key (sadd key members st).2));
               Print [Lit "The cardinality of the set is now: ";
                      Num (scard key (sadd key members st).2)]])).
Proof.
  intros Hk Hbad Hint Hn Hlen Hne key members.
  unfold create_new_set. run. rewrite decide_False by done. run.
  destruct (get_int_skip "Enter how many members will this set have: "
              (Some 1) None bad (nline :: mlines ++ rest) st on
              (lg ++ [Prompt "Enter the key you wish to add: "]) Hbad)
    as (evs & Hcalls & ->).
  rewrite (get_int_accept _ _ _ _ _ _ _ _ n Hint)
    by (split; [by intros ? [= <-]|done]).
  rewrite <- Hlen, collect_members_all by done.
  cbn [app]. fold members key.
  run. rewrite r_sadd_some by (destruct mlines; [cbn in Hlen; lia|done]).
  run.
  exists ([Prompt "Enter the key you wish to add: "] ++ evs
          ++ [Prompt "Enter how many members will this set have: "]
          ++ replicate (length mlines) (Prompt "Enter the next member value: ")).
  split.
  - by rewrite !calls_app, Hcalls, calls_replicate_prompt.
  - do 2 f_equal. rewrite <- !app_assoc. reflexivity.
Qed.

End create.

(** ** The query flow *)

Lemma retrieve_set_members_present kline rest st on lg s :
  strip kline ≠ "" → st !! strip kline = Some s →
  retrieve_set_members (World (kline :: rest) st on lg)
  = Done tt (World rest st on (lg ++ query_events (strip kline) s)).
Proof.
  intros Hk Hs. unfold retrieve_set_members, format_members. run.
  rewrite decide_False by done. run.
  rewrite exists_present by eauto. rewrite decide_False by done. run.
  rewrite (smembers_lookup _ _ _ Hs). unfold query_events.
  destruct (decide (s = ∅)) as [->|Hne].
  - rewrite elements_empty. cbn [length]. rewrite decide_True by done. run.
    unfold scard. rewrite (smembers_lookup _ _ _ Hs).
    by rewrite <- !app_assoc.
  - rewrite decide_False.
    2:{ intros Hl%nil_length_inv. by apply elements_empty_inv, leibniz_equiv in Hl. }
    rewrite for_each_print. run.
    unfold scard. rewrite (smembers_lookup _ _ _ Hs).
    by rewrite <- !app_assoc.
Qed.

Lemma retrieve_set_members_absent kline rest st on lg :
  strip kline ≠ "" → st !! strip kline = None →
  retrieve_set_members (World (kline :: rest) st on lg)
  = Done tt
      (World rest st on
         (lg ++ [Prompt "Enter the key you wish to query: ";
                 Call (EXISTS (strip kline)) (Int 0);
                 Print [Lit "Key '"; Str (strip kline); Lit "' does not exist."]])).
Proof.
  intros Hk Hs. unfold retrieve_set_members. run.
  rewrite decide_False by done. run.
  rewrite exists_absent by done. rewrite decide_True by done. run.
  by rewrite <- !app_assoc.
Qed.

(** ** Create, then query *)

(** C1, as stated, fails: the create-set flow adds to whatever the key
    already holds.  With ["x"] already in the set at ["k"], creating ["k"]
    with the single member ["a"] and then querying ["k"] shows the two
    members ["a"] and ["x"] and cardinality 2, not the set of ["a"] alone. *)
Lemma create_then_query_existing_key :
  let w := fresh ["k"; "1"; "a"; "k"] {["k" := {["x"]}]} in
  ∃ w1 w2,
    create_new_set w = Done tt w1 ∧
    retrieve_set_members w1 = Done tt w2 ∧
    log w2 = log w1 ++ query_events "k" {["a"; "x"]} ∧
    log w2 ≠ log w1 ++ query_events "k" {["a"]}.
Proof.
  eexists _, _. split; [by vm_compute|]. split; [by vm_compute|].
  split; [by vm_compute|].
  intros Heq. vm_compute in Heq. discriminate Heq.
Qed.

(** C1, amended: for every key K (non-empty once stripped) and every batch
    of members (each non-empty once stripped) entered through the
    create-set flow, a query of K that follows at once returns the members
    K held before together with the batch, and reports the cardinality of
    that union; when K did not exist before, this is exactly the batch as
    a set. *)
Theorem create_then_query w kline bad nline mlines qline rest n :
  stdin w = kline :: bad ++ nline :: mlines ++ qline :: rest →
  strip kline ≠ "" → Forall (rejected (Some 1) None) bad →
  int (strip nline) = Some n → 1 ≤ n → length mlines = Z.to_nat n →
  Forall (λ l, strip l ≠ "") mlines →
  strip qline = strip kline →
  let key := strip kline in
  let batch : gset string := list_to_set (strip <$> mlines) in
  ∃ w1,
    create_new_set w = Done tt w1 ∧
    retrieve_set_members w1
    = Done tt (after w1 rest (db w1)
                 (query_events key (smembers key (db w) ∪ batch))) ∧
    (db w !! key = None → smembers key (db w) ∪ batch = batch).
Proof.
  destruct w as [inp st on lg].
  intros Hin Hk Hbad Hint Hn Hlen Hne Hq key batch.
  cbn [stdin db] in *. subst inp.
  destruct (create_new_set_adds st on kline bad nline mlines (qline :: rest)
              lg n Hk Hbad Hint Hn Hlen Hne) as (evs & _ & Hrun).
  eexists. split; [exact Hrun|]. split.
  - rewrite (retrieve_set_members_present _ _ _ _ _
               (smembers key st ∪ batch)).
    + unfold after. cbn [stdin db online log]. by rewrite Hq.
    + by rewrite Hq.
    + rewrite Hq. unfold sadd. cbn [snd]. apply lookup_insert_eq.
  - intros Habs. rewrite (smembers_absent _ _ Habs). apply (left_id_L ∅ (∪)).
Qed.

Lemma create_then_query_witness :
  ∃ w1,
    create_new_set (fresh ["colors"; "2"; "red"; "green"; "colors"] ∅)
    = Done tt w1 ∧
    retrieve_set_members w1
    = Done tt (after w1 [] (db w1)
                 (query_events "colors" (∅ ∪ {["red"; "green"]}))).
Proof.
  destruct (create_then_query
              (fresh ["colors"; "2"; "red"; "green"; "colors"] ∅)
              "colors" [] "2" ["red"; "green"] "colors" [] 2)
    as (w1 & Hrun & Hquery & _).
  - reflexivity.
  - by vm_compute.
  - constructor.
  - reflexivity.
  - lia.
  - reflexivity.
  - repeat constructor; by vm_compute.
  - reflexivity.
  - exists w1. split; [exact Hrun|exact Hquery].
Defined.

(** ** A blank member aborts the create-set flow *)

(** C3: when one of the N member inputs is blank, the create-set flow ends
    at the first blank one with its message; no command at all has been
    sent to Redis, the database is as it was, and the lines after the
    blank one are still to be read. *)
Theorem create_new_set_blank_member w kline bad nline lines n i e :
  stdin w = kline :: bad ++ nline :: lines →
  strip kline ≠ "" → Forall (rejected (Some 1) None) bad →
  int (strip nline) = Some n → 1 ≤ n →
  (i < Z.to_nat n)%nat → lines !! i = Some e → strip e = "" →
  ∃ evs j,
    create_new_set w
    = Done tt (after w (drop (S j) lines) (db w)
                 (evs ++ [Print [Lit "Member cannot be empty. Try again."]])) ∧
    calls evs = [] ∧ (j ≤ i)%nat.
Proof.
  destruct w as [inp st on lg]. cbn [stdin db].
  intros -> Hk Hbad Hint Hn Hi Hlook He.
  destruct (first_blank lines i e Hlook He)
    as (pre & e' & post & -> & Hpre & He' & Hlen).
  unfold create_new_set. run. rewrite decide_False by done. run.
  destruct (get_int_skip "Enter how many members will this set have: "
              (Some 1) None bad (nline :: pre ++ e' :: post) st on
              (lg ++ [Prompt "Enter the key you wish to add: "]) Hbad)
    as (evs & Hcalls & ->).
  rewrite (get_int_accept _ _ _ _ _ _ _ _ n Hint)
    by (split; [by intros ? [= <-]|done]).
  rewrite collect_members_abort by (done || lia). run.
  exists ([Prompt "Enter the key you wish to add: "] ++ evs
          ++ [Prompt "Enter how many members will this set have: "]
          ++ replicate (S (length pre)) (Prompt "Enter the next member value: ")),
         (length pre).
  split; [|split; [|done]].
  - unfold after. cbn [stdin db online log]. do 2 f_equal.
    + clear. induction pre as [|l pre IH]; [done|]. exact IH.
    + by rewrite <- !app_assoc.
  - by rewrite !calls_app, Hcalls, calls_replicate_prompt.
Qed.

Lemma create_new_set_blank_member_witness :
  ∃ evs j,
    create_new_set (fresh ["colors"; "3"; "red"; "  "; "blue"] {["k" := {["x"]}]})
    = Done tt (after (fresh ["colors"; "3"; "red"; "  "; "blue"] {["k" := {["x"]}]})
                 (drop (S j) ["red"; "  "; "blue"])
                 (db (fresh ["colors"; "3"; "red"; "  "; "blue"] {["k" := {["x"]}]}))
                 (evs ++ [Print [Lit "Member cannot be empty. Try again."]])) ∧
    calls evs = [] ∧ (j ≤ 1)%nat.
Proof.
  apply (create_new_set_blank_member
           (fresh ["colors"; "3"; "red"; "  "; "blue"] {["k" := {["x"]}]})
           "colors" [] "3" ["red"; "  "; "blue"] 3 1%nat "  ").
  - reflexivity.
  - by vm_compute.
  - constructor.
  - reflexivity.
  - lia.
  - vm_compute; lia.
  - reflexivity.
  - reflexivity.
Defined.

(** ** One batched add *)

(** C4: the create-set flow sends Redis exactly one [SADD], carrying all N
    collected members in the order typed, followed by one [SCARD].  The
    count it reports is the size of the batch as a set less the members
    the key already held, so duplicates inside the batch and members
    already present are not counted; the cardinality it reports is that of
    the union.  For the fresh key ["colors"] and the inputs ["red"],
    ["green"], ["red"] both numbers are 2 (see the witness). *)
Theorem create_new_set_one_batched_add w kline bad nline mlines rest n :
  stdin w = kline :: bad ++ nline :: mlines ++ rest →
  strip kline ≠ "" → Forall (rejected (Some 1) None) bad →
  int (strip nline) = Some n → 1 ≤ n → length mlines = Z.to_nat n →
  Forall (λ l, strip l ≠ "") mlines →
  let key := strip kline in
  let members := strip <$> mlines in
  let old := smembers key (db w) in
  let added := Z.of_nat (size (list_to_set members ∖ old : gset string)) in
  let card := Z.of_nat (size (old ∪ list_to_set members)) in
  ∃ evs,
    create_new_set w
    = Done tt
        (after w rest (<[key := old ∪ list_to_set members]> (db w))
           (evs ++
            [Call (SADD key members) (Int added);
             Print [Lit "Set '"; Str key;
                    Lit "' updated. Members added this operation: "; Num added];
             Call (SCARD key) (Int card);
             Print [Lit "The cardinality of the set is now: "; Num card]])) ∧
    calls evs = [] ∧ length members = Z.to_nat n.
Proof.
  destruct w as [inp st on lg].
  intros Hin Hk Hbad Hint Hn Hlen Hne key members old added card.
  cbn [stdin db] in *. subst inp.
  destruct (create_new_set_adds st on kline bad nline mlines rest
              lg n Hk Hbad Hint Hn Hlen Hne) as (evs & Hcalls & Hrun).
  exists evs. split; [|split; [done|]].
  - rewrite Hrun. unfold after. cbn [stdin db online log].
    fold key members. rewrite sadd_reply. fold old added.
    unfold scard, sadd. cbn [snd]. rewrite smembers_insert. reflexivity.
  - unfold members. by rewrite length_fmap.
Qed.

Lemma create_new_set_one_batched_add_witness :
  ∃ evs,
    create_new_set (fresh ["colors"; "3"; "red"; "green"; "red"] ∅)
    = Done tt
        (after (fresh ["colors"; "3"; "red"; "green"; "red"] ∅) []
           {["colors" := {["red"; "green"]}]}
           (evs ++
            [Call (SADD "colors" ["red"; "green"; "red"]) (Int 2);
             Print [Lit "Set '"; Str "colors";
                    Lit "' updated. Members added this operation: "; Num 2];
             Call (SCARD "colors") (Int 2);
             Print [Lit "The cardinality of the set is now: "; Num 2]])).
Proof.
  destruct (create_new_set_one_batched_add
              (fresh ["colors"; "3"; "red"; "green"; "red"] ∅)
              "colors" [] "3" ["red"; "green"; "red"] [] 3)
    as (evs & Hrun & _).
  - reflexivity.
  - by vm_compute.
  - constructor.
  - reflexivity.
  - lia.
  - reflexivity.
  - repeat constructor; by vm_compute.
  - exists evs. exact Hrun.
Defined.

(** ** The update sub-menu *)

Section update.
Context (key : string) (on : bool).

(** The sub-menu is shown once; rejected selections are asked for again
    until one is accepted. *)
Lemma update_menu_selects bad cline rest st lg c :
  Forall (rejected (Some 1) (Some 4)) bad →
  int (strip cline) = Some c → 1 ≤ c ≤ 4 →
  ∃ evs, calls evs = [] ∧
    update_menu key (World (bad ++ cline :: rest) st on lg)
    = update_choice key c (World rest st on (lg ++ evs)).
Proof.
  intros Hbad Hint Hc. unfold update_menu. run.
  match goal with
  | |- context [get_int _ _ _ (World _ _ _ ?lg')] =>
      destruct (get_int_skip "Selection: " (Some 1) (Some 4) bad
                  (cline :: rest) st on lg' Hbad) as (evs & Hcalls & ->)
  end.
  rewrite (get_int_accept _ _ _ _ _ _ _ _ c Hint)
    by (split; intros ? [= <-]; lia).
  eexists. split; [|f_equal; f_equal; rewrite <- !app_assoc; reflexivity].
  by rewrite !calls_app, Hcalls.
Qed.

Lemma update_choice_add_present mline rest st lg :
  strip mline ≠ "" → strip mline ∈ smembers key st →
  update_choice key 1 (World (mline :: rest) st on lg)
  = Done Continue
      (World rest st on
         (lg ++ [Prompt "Enter the member value to add: ";
                 Call (SADD key [strip mline]) (Int 0);
                 Print [Lit "Member '"; Str (strip mline);
                        Lit "' already existed in set '"; Str key; Lit "'."];
                 Call (SCARD key) (Int (scard key st));
                 Print [Lit "The cardinality of the set is now: ";
                        Num (scard key st)]])).
Proof.
  intros Hm Hin. unfold update_choice. rewrite decide_True by done. run.
  rewrite decide_False by done. run.
  rewrite r_sadd_some by done. cbn [db stdin online log]. run.
  rewrite (sadd_present _ _ _ Hin). cbn [fst snd].
  rewrite decide_False by done. run. by rewrite <- !app_assoc.
Qed.

Lemma update_choice_remove_absent mline rest st lg :
  strip mline ≠ "" → strip mline ∉ smembers key st →
  update_choice key 2 (World (mline :: rest) st on lg)
  = Done Continue
      (World rest st on
         (lg ++ [Prompt "Enter the member value to remove: ";
                 Call (SREM key (strip mline)) (Int 0);
                 Print [Lit "Member '"; Str (strip mline);
                        Lit "' was not found in set '"; Str key; Lit "'."];
                 Call (SCARD key) (Int (scard key st));
                 Print [Lit "The cardinality of the set is now: ";
                        Num (scard key st)]])).
Proof.
  intros Hm Hin. unfold update_choice.
  rewrite decide_False by done. rewrite decide_True by done. run.
  rewrite decide_False by done. run.
  rewrite (srem_absent _ _ _ Hin). cbn [fst snd].
  rewrite decide_False by done. run. by rewrite <- !app_assoc.
Qed.

Lemma update_choice_remove_present mline rest st lg :
  strip mline ≠ "" → strip mline ∈ smembers key st →
  update_choice key 2 (World (mline :: rest) st on lg)
  = Done Continue
      (World rest (srem key (strip mline) st).2 on
         (lg ++ [Prompt "Enter the member value to remove: ";
                 Call (SREM key (strip mline)) (Int 1);
                 Print [Lit "Removed member '"; Str (strip mline);
                        Lit "' from set '"; Str key; Lit "'."];
                 Call (SCARD key) (Int (scard key st - 1));
                 Print [Lit "The cardinality of the set is now: ";
                        Num (scard key st - 1)]])).
Proof.
  intros Hm Hin. unfold update_choice.
  rewrite decide_False by done. rewrite decide_True by done. run.
  rewrite decide_False by done. run.
  destruct (srem_present _ _ _ Hin) as (Hr & _ & Hcard & _).
  rewrite Hr. rewrite decide_True by done. run. rewrite Hcard.
  by rewrite <- !app_assoc.
Qed.

Lemma update_choice_blank c mline rest st lg :
  c = 1 ∨ c = 2 → strip mline = "" →
  update_choice key c (World (mline :: rest) st on lg)
  = Done Continue
      (World rest st on
         (lg ++ [Prompt (if decide (c = 1)
                         then "Enter the member value to add: "
                         else "Enter the member value to remove: ");
                 Print [Lit "Member cannot be empty."]])).
Proof.
  intros [-> | ->] Hm; unfold update_choice.
  - rewrite !decide_True by done. run. rewrite decide_True by done. run.
    by rewrite <- !app_assoc.
  - rewrite decide_False by done. rewrite decide_True by done. run.
    rewrite decide_True by done. rewrite decide_False by done. run.
    by rewrite <- !app_assoc.
Qed.

End update.

(** ** Removing all members *)

Section remove_all.
Context (key : string) (on : bool).

Local Abbreviation srem_each := (srem_each key).

Lemma remove_each_run l inp st lg :
  NoDup l → (∀ m, m ∈ l → m ∈ smembers key st) →
  for_each l (λ m,
    print [Lit "Removing Member: "; Bytes m; Lit "..."];;
    _ <- r.srem key m;; ret tt) (World inp st on lg)
  = Done tt (World inp (srem_each st l) on (lg ++ remove_events key l)).
Proof.
  revert st lg. induction l as [|m l IH]; intros st lg Hnd Hin.
  - cbn. by rewrite app_nil_r.
  - apply NoDup_cons in Hnd as [Hm Hnd].
    assert (m ∈ smembers key st) as Hmin by (apply Hin; left).
    destruct (srem_present _ _ _ Hmin) as (Hr & Hs & _ & _).
    cbn [for_each]. run. rewrite Hr, IH; [|done|].
    + unfold remove_events. cbn [flat_map app foldl]. by rewrite <- !app_assoc.
    + intros m' Hm'. rewrite Hs. apply elem_of_difference. split.
      * apply Hin. by right.
      * intros Heq%elem_of_singleton. subst m'. contradiction.
Qed.

Lemma srem_each_other l st key' :
  key' ≠ key → srem_each st l !! key' = st !! key'.
Proof.
  intros Hne. revert st. induction l as [|m l IH]; intros st; [done|].
  cbn [srem_each foldl]. fold (srem_each (srem key m st).2 l). rewrite IH.
  unfold srem. destruct (decide (m ∈ _)); [|done]. cbn [snd].
  destruct (decide _).
  - by rewrite lookup_delete_ne.
  - by rewrite lookup_insert_ne.
Qed.

Lemma srem_each_key l st :
  NoDup l → l ≠ [] → (∀ m, m ∈ l → m ∈ smembers key st) →
  srem_each st l !! key
  = if decide (smembers key st ∖ list_to_set l = ∅) then None
    else Some (smembers key st ∖ list_to_set l).
Proof.
  revert st. induction l as [|m l IH]; intros st Hnd Hnil Hin; [done|].
  apply NoDup_cons in Hnd as [Hm Hnd].
  assert (m ∈ smembers key st) as Hmin by (apply Hin; left).
  destruct (srem_present _ _ _ Hmin) as (_ & Hs & _ & _).
  cbn [srem_each foldl list_to_set]. fold (srem_each (srem key m st).2 l).
  assert (smembers key st ∖ ({[m]} ∪ list_to_set l)
          = smembers key st ∖ {[m]} ∖ list_to_set l) as ->.
  { apply set_eq. intros x.
    rewrite !elem_of_difference, elem_of_union. tauto. }
  destruct (decide (l = [])) as [->|Hl].
  - cbn [srem_each foldl list_to_set]. rewrite difference_empty_L.
    by apply srem_lookup.
  - rewrite IH; [by rewrite Hs|done..|].
    intros m' Hm'. rewrite Hs. apply elem_of_difference. split.
    + apply Hin. by right.
    + intros Heq%elem_of_singleton. subst m'. contradiction.
Qed.

(** Removing every member of a non-empty set one by one removes the key
    and nothing else. *)
Lemma srem_each_elements st :
  smembers key st ≠ ∅ →
  srem_each st (elements (smembers key st)) = delete key st.
Proof.
  intros Hne. apply map_eq. intros k.
  destruct (decide (k = key)) as [->|Hk].
  - rewrite lookup_delete_eq, srem_each_key.
    + rewrite list_to_set_elements_L, difference_diag_L.
      by rewrite decide_True.
    + apply NoDup_elements.
    + intros Hnil. by apply elements_empty_inv, leibniz_equiv in Hnil.
    + intros m. by rewrite elem_of_elements.
  - rewrite lookup_delete_ne by done. by apply srem_each_other.
Qed.

Lemma update_choice_remove_all rest st lg :
  smembers key st ≠ ∅ →
  update_choice key 3 (World rest st on lg)
  = Done Continue
      (World rest (delete key st) on
         (lg ++ [Print [Lit "Removing all set members..."];
                 Call (SMEMBERS key) (Members (smembers key st))]
             ++ remove_events key (elements (smembers key st))
             ++ [Call (SCARD key) (Int 0);
                 Print [Lit "The cardinality of the set is now: "; Num 0]])).
Proof.
  intros Hne. unfold update_choice.
  rewrite !(decide_False (P := 3 = _)) by done.
  rewrite decide_True by done. run. rewrite decide_False by done.
  rewrite remove_each_run.
  - rewrite srem_each_elements by done. run.
    unfold scard. rewrite smembers_delete, size_empty.
    by rewrite <- !app_assoc.
  - apply NoDup_elements.
  - intros m. by rewrite elem_of_elements.
Qed.

End remove_all.

(** ** Adding and removing single members *)

(** C6: in the update sub-menu, adding a member that is already in the set
    reports that it already existed and leaves the set and its cardinality
    as they were; removing a member that is not in the set reports that it
    was not found and leaves the cardinality as it was; removing a member
    that is in the set reports the removal and a cardinality smaller by
    exactly 1. *)
Theorem update_menu_add_remove key w bad cline mline rest :
  stdin w = bad ++ cline :: mline :: rest →
  Forall (rejected (Some 1) (Some 4)) bad →
  strip mline ≠ "" →
  let member := strip mline in
  let old := smembers key (db w) in
  let card_line n := Print [Lit "The cardinality of the set is now: "; Num n] in
  (int (strip cline) = Some 1 → member ∈ old →
   ∃ evs, calls evs = [] ∧
     update_menu key w
     = Done Continue
         (after w rest (db w)
            (evs ++ [Prompt "Enter the member value to add: ";
                     Call (SADD key [member]) (Int 0);
                     Print [Lit "Member '"; Str member;
                            Lit "' already existed in set '"; Str key; Lit "'."];
                     Call (SCARD key) (Int (scard key (db w)));
                     card_line (scard key (db w))]))) ∧
  (int (strip cline) = Some 2 → member ∉ old →
   ∃ evs, calls evs = [] ∧
     update_menu key w
     = Done Continue
         (after w rest (db w)
            (evs ++ [Prompt "Enter the member value to remove: ";
                     Call (SREM key member) (Int 0);
                     Print [Lit "Member '"; Str member;
                            Lit "' was not found in set '"; Str key; Lit "'."];
                     Call (SCARD key) (Int (scard key (db w)));
                     card_line (scard key (db w))]))) ∧
  (int (strip cline) = Some 2 → member ∈ old →
   ∃ evs st', calls evs = [] ∧
     update_menu key w
     = Done Continue
         (after w rest st'
            (evs ++ [Prompt "Enter the member value to remove: ";
                     Call (SREM key member) (Int 1);
                     Print [Lit "Removed member '"; Str member;
                            Lit "' from set '"; Str key; Lit "'."];
                     Call (SCARD key) (Int (scard key (db w) - 1));
                     card_line (scard key (db w) - 1)])) ∧
     scard key st' = scard key (db w) - 1 ∧
     smembers key st' = old ∖ {[member]}).
Proof.
  destruct w as [inp st on lg].
  intros Hin Hbad Hm member old card_line. cbn [stdin db] in *. subst inp.
  split; [|split].
  - intros Hint Hmem.
    destruct (update_menu_selects key on bad cline (mline :: rest) st lg 1
                Hbad Hint) as (evs & Hcalls & ->); [lia|].
    exists evs. split; [done|].
    rewrite update_choice_add_present by done.
    unfold after. cbn [stdin db online log]. by rewrite <- app_assoc.
  - intros Hint Hmem.
    destruct (update_menu_selects key on bad cline (mline :: rest) st lg 2
                Hbad Hint) as (evs & Hcalls & ->); [lia|].
    exists evs. split; [done|].
    rewrite update_choice_remove_absent by done.
    unfold after. cbn [stdin db online log]. by rewrite <- app_assoc.
  - intros Hint Hmem.
    destruct (update_menu_selects key on bad cline (mline :: rest) st lg 2
                Hbad Hint) as (evs & Hcalls & ->); [lia|].
    destruct (srem_present _ _ _ Hmem) as (_ & Hs & Hcard & _).
    exists evs, (srem key member st).2. split; [done|]. split; [|done].
    rewrite update_choice_remove_present by done.
    unfold after. cbn [stdin db online log]. by rewrite <- app_assoc.
Qed.

Lemma update_menu_add_remove_witness :
  let w := fresh ["9"; "2"; " red "] {["colors" := {["red"; "green"]}]} in
  ∃ evs st', calls evs = [] ∧
    update_menu "colors" w
    = Done Continue
        (after w [] st'
           (evs ++ [Prompt "Enter the member value to remove: ";
                    Call (SREM "colors" "red") (Int 1);
                    Print [Lit "Removed member '"; Str "red";
                           Lit "' from set '"; Str "colors"; Lit "'."];
                    Call (SCARD "colors") (Int 1);
                    Print [Lit "The cardinality of the set is now: "; Num 1]])) ∧
    scard "colors" st' = 1.
Proof.
  intros w.
  destruct (update_menu_add_remove "colors" w ["9"] "2" " red " [])
    as (_ & _ & Hremove).
  - reflexivity.
  - repeat constructor. intros v Hv [_ Hmax].
    vm_compute in Hv. injection Hv as <-. specialize (Hmax 4 eq_refl). lia.
  - by vm_compute.
  - destruct Hremove as (evs & st' & Hcalls & Hrun & Hcard & _).
    + reflexivity.
    + by vm_compute.
    + exists evs, st'. split; [exact Hcalls|]. split; [exact Hrun|exact Hcard].
Defined.

(** ** A blank member in the update sub-menu *)

(** C9: in the add-member and remove-member choices of the update
    sub-menu, a blank member gets the message and nothing else: no command
    is sent to Redis, the database is as it was, and the sub-menu loop goes
    on with its next pass instead of ending the update operation. *)
Theorem update_menu_blank_member key w bad cline mline rest c :
  stdin w = bad ++ cline :: mline :: rest →
  Forall (rejected (Some 1) (Some 4)) bad →
  int (strip cline) = Some c → c = 1 ∨ c = 2 →
  strip mline = "" →
  ∃ evs, calls evs = [] ∧
    update_menu key w
    = Done Continue
        (after w rest (db w) (evs ++ [Print [Lit "Member cannot be empty."]])) ∧
    ∀ fuel,
      while_true (S fuel) (update_menu key) w
      = while_true fuel (update_menu key)
          (after w rest (db w) (evs ++ [Print [Lit "Member cannot be empty."]])).
Proof.
  destruct w as [inp st on lg].
  intros Hin Hbad Hint Hc Hm. cbn [stdin db] in *. subst inp.
  destruct (update_menu_selects key on bad cline (mline :: rest) st lg c
              Hbad Hint) as (evs & Hcalls & Hsel); [lia|].
  rewrite (update_choice_blank key on c) in Hsel by done.
  eexists (evs ++ [Prompt _]).
  assert (update_menu key (World (bad ++ cline :: mline :: rest) st on lg)
          = Done Continue
              (after (World (bad ++ cline :: mline :: rest) st on lg) rest st
                 ((evs ++ [Prompt (if decide (c = 1)
                                   then "Enter the member value to add: "
                                   else "Enter the member value to remove: ")])
                  ++ [Print [Lit "Member cannot be empty."]]))) as Hrun.
  { rewrite Hsel. unfold after. cbn [stdin db online log].
    by rewrite <- !app_assoc. }
  split; [by rewrite calls_app, Hcalls|]. split; [exact Hrun|].
  intros fuel. cbn [while_true]. by rewrite (bind_done _ _ _ _ _ Hrun).
Qed.

Lemma update_menu_blank_member_witness :
  let w := fresh ["1"; "   "; "4"] {["colors" := {["red"]}]} in
  ∃ evs, calls evs = [] ∧
    update_menu "colors" w
    = Done Continue
        (after w ["4"] (db w) (evs ++ [Print [Lit "Member cannot be empty."]])).
Proof.
  intros w.
  destruct (update_menu_blank_member "colors" w [] "1" "   " ["4"] 1)
    as (evs & Hcalls & Hrun & _).
  - reflexivity.
  - constructor.
  - reflexivity.
  - left. reflexivity.
  - reflexivity.
  - exists evs. split; [exact Hcalls|exact Hrun].
Defined.

(** ** Removing all members *)

(** C7: the remove-all choice fetches the members of the set once and
    sends one [SREM] per member of that snapshot, each replying 1, and no
    bulk delete; on a non-empty set the cardinality read afterwards is 0,
    the key is gone, and every other key of the database is as it was. *)
Theorem update_menu_remove_all key w bad cline rest :
  stdin w = bad ++ cline :: rest →
  Forall (rejected (Some 1) (Some 4)) bad →
  int (strip cline) = Some 3 →
  smembers key (db w) ≠ ∅ →
  let snapshot := smembers key (db w) in
  ∃ evs st', calls evs = [] ∧
    update_menu key w
    = Done Continue
        (after w rest st'
           (evs ++ [Print [Lit "Removing all set members..."];
                    Call (SMEMBERS key) (Members snapshot)]
                ++ remove_events key (elements snapshot)
                ++ [Call (SCARD key) (Int 0);
                    Print [Lit "The cardinality of the set is now: "; Num 0]])) ∧
    calls (remove_events key (elements snapshot))
    = (λ m, (SREM key m, Int 1)) <$> elements snapshot ∧
    scard key st' = 0 ∧ st' !! key = None ∧
    ∀ key', key' ≠ key → st' !! key' = db w !! key'.
Proof.
  destruct w as [inp st on lg].
  intros Hin Hbad Hint Hne snapshot. cbn [stdin db] in *. subst inp.
  destruct (update_menu_selects key on bad cline rest st lg 3
              Hbad Hint) as (evs & Hcalls & ->); [lia|].
  exists evs, (delete key st). split; [done|]. split; [|split; [|split; [|split]]].
  - rewrite update_choice_remove_all by done.
    unfold after. cbn [stdin db online log]. by rewrite <- !app_assoc.
  - unfold remove_events. induction (elements snapshot) as [|m l IH]; [done|].
    cbn. f_equal. exact IH.
  - unfold scard. by rewrite smembers_delete, size_empty.
  - apply lookup_delete_eq.
  - intros key' Hk. by apply lookup_delete_ne.
Qed.

Lemma update_menu_remove_all_witness :
  let w := fresh ["3"]
             {["abc" := {["a"; "b"; "c"]}; "other" := {["x"]}]} in
  ∃ evs st',
    update_menu "abc" w
    = Done Continue
        (after w [] st'
           (evs ++ [Print [Lit "Removing all set members..."];
                    Call (SMEMBERS "abc") (Members (smembers "abc" (db w)))]
                ++ remove_events "abc" (elements (smembers "abc" (db w)))
                ++ [Call (SCARD "abc") (Int 0);
                    Print [Lit "The cardinality of the set is now: "; Num 0]])) ∧
    scard "abc" st' = 0 ∧ st' !! "other" = Some {["x"]}.
Proof.
  intros w.
  destruct (update_menu_remove_all "abc" w [] "3" [])
    as (evs & st' & _ & Hrun & _ & Hcard & _ & Hother).
  - reflexivity.
  - constructor.
  - reflexivity.
  - by vm_compute.
  - exists evs, st'. split; [exact Hrun|]. split; [exact Hcard|].
    rewrite Hother by (by vm_compute). reflexivity.
Defined.

(** ** Deleting all data *)

(** C5, as stated, fails: a confirmation other than ["y"] can still flush.
    The answer is lower-cased before it is compared, so the line ["Y"]
    empties a database that held a key. *)
Lemma delete_all_data_capital_y :
  let w := fresh ["Y"] {["k" := {["x"]}]} in
  "Y" ≠ "y" ∧
  ∃ w', delete_all_data w = Done tt w' ∧
        calls (log w') = [(FLUSHDB, Ok)] ∧
        scard "k" (db w) = 1 ∧ scard "k" (db w') = 0.
Proof.
  split; [done|]. eexists. split; [by vm_compute|]. by vm_compute.
Qed.

(** C5, amended: in the delete-all-data flow the confirmation is stripped
    of surrounding white space and lower-cased; when the result is ["y"]
    (the operator typed ["y"] or ["Y"], possibly padded) one [FLUSHDB] is
    sent and the database is left without keys; for any other answer
    nothing is sent to Redis and the database, hence the cardinality at
    every key, is as it was. *)
Theorem delete_all_data_confirmation w line rest :
  stdin w = line :: rest →
  let ask := Prompt "Are you sure you want to delete ALL data from the database? (y/n): " in
  (lower (strip line) = "y" ↔ strip line = "y" ∨ strip line = "Y") ∧
  (lower (strip line) = "y" →
   delete_all_data w
   = Done tt
       (after w rest ∅
          [ask; Call FLUSHDB Ok;
           Print [Lit "All data deleted from Redis database (FLUSHDB)."]])) ∧
  (lower (strip line) ≠ "y" →
   delete_all_data w
   = Done tt (after w rest (db w) [ask; Print [Lit "Delete all canceled."]])).
Proof.
  destruct w as [inp st on lg]. intros Hin ask. cbn [stdin db] in *. subst inp.
  split; [apply TextFacts.lower_is_y|]. split; intros Hy.
  - unfold delete_all_data. run. rewrite decide_True by done. run.
    unfold after, flushdb. cbn [stdin db online log]. by rewrite <- !app_assoc.
  - unfold delete_all_data. run. rewrite decide_False by done. run.
    unfold after. cbn [stdin db online log]. by rewrite <- !app_assoc.
Qed.

Lemma delete_all_data_confirmation_witness :
  let w := fresh ["n"] {["k" := {["x"]}]} in
  delete_all_data w
  = Done tt
      (after w [] (db w)
         [Prompt "Are you sure you want to delete ALL data from the database? (y/n): ";
          Print [Lit "Delete all canceled."]]).
Proof.
  intros w.
  destruct (delete_all_data_confirmation w "n" []) as (_ & _ & Hcancel).
  - reflexivity.
  - apply Hcancel. by vm_compute.
Defined.

(** ** The reader and the main menu *)

(** A pass of the main menu ends the loop exactly when the selection is 6. *)
Lemma main_choice_flow selection w f w' :
  main_choice selection w = Done f w' → (f = Break ↔ selection = 6).
Proof.
  unfold main_choice.
  repeat (destruct (decide (selection = _)) as [->|?]);
    try (intros (? & ? & _ & [= <- <-])%bind_inv; split; [done|lia || done]).
  intros [= <- <-]. done.
Qed.

Lemma main_menu_inv w f w' :
  main_menu w = Done f w' →
  ∃ bad line rest v,
    stdin w = bad ++ line :: rest ∧
    Forall (rejected (Some 1) (Some 6)) bad ∧
    int (strip line) = Some v ∧ 1 ≤ v ≤ 6 ∧ (f = Break ↔ v = 6).
Proof.
  unfold main_menu. run.
  intros (v & w1 & Hget & Hchoice)%bind_inv.
  apply get_int_inv in Hget
    as (bad & line & Hin & Hbad & Hint & [Hmin Hmax] & _).
  cbn [stdin] in Hin.
  exists bad, line, (stdin w1), v. repeat split; try done.
  - by apply Hmin.
  - by apply Hmax.
  - by apply (main_choice_flow v w1 f w').
  - by apply (main_choice_flow v w1 f w').
Qed.

Lemma bind_assoc {A B C} (m : M A) (f : A → M B) (g : B → M C) w :
  bind (bind m f) g w = bind m (λ a, bind (f a) g) w.
Proof. cbn [bind]. by destruct (m w). Qed.

(** What the main menu prints before it asks for the selection. *)
Lemma main_menu_asks w :
  ∃ evs, calls evs = [] ∧
    main_menu w
    = (selection <- get_int "Selection: " (Some 1) (Some 6);;
       main_choice selection) (after w (stdin w) (db w) evs).
Proof.
  destruct w as [inp st on lg]. unfold main_menu, after. run.
  exists [Print [Lit newline;
                 Lit "Type in a number and press enter to execute the menu option."];
          Print [Lit "1. Query for set members"];
          Print [Lit "2. Add a new set"];
          Print [Lit "3. Update members of a set"];
          Print [Lit "4. Delete a set"];
          Print [Lit "5. Delete all data from the database"];
          Print [Lit "6. Exit the program"]].
  split; [done|]. by rewrite <- !app_assoc.
Qed.

(** Rejected selections leave a pass of the main menu where it was: asking
    for a selection.  They add prompts and complaints to the log and
    nothing else. *)
Lemma main_menu_reprompts bad rest st on lg :
  Forall (rejected (Some 1) (Some 6)) bad →
  ∃ evs, calls evs = [] ∧
    main_menu (World (bad ++ rest) st on lg)
    = (selection <- get_int "Selection: " (Some 1) (Some 6);;
       main_choice selection) (World rest st on (lg ++ evs)).
Proof.
  intros Hbad.
  destruct (main_menu_asks (World (bad ++ rest) st on lg))
    as (evs0 & Hcalls0 & ->).
  unfold after. cbn [stdin db online log].
  destruct (get_int_skip "Selection: " (Some 1) (Some 6) bad rest st on
              (lg ++ evs0) Hbad) as (evs & Hcalls & Hskip).
  exists (evs0 ++ evs). split; [by rewrite calls_app, Hcalls0, Hcalls|].
  cbn [bind]. by rewrite Hskip, <- app_assoc.
Qed.

Lemma main_menu_selects bad line rest st on lg v :
  Forall (rejected (Some 1) (Some 6)) bad →
  int (strip line) = Some v → 1 ≤ v ≤ 6 →
  ∃ evs, calls evs = [] ∧
    main_menu (World (bad ++ line :: rest) st on lg)
    = main_choice v (World rest st on (lg ++ evs)).
Proof.
  intros Hbad Hint Hv. unfold main_menu. run.
  match goal with
  | |- context [get_int _ _ _ (World _ _ _ ?lg')] =>
      destruct (get_int_skip "Selection: " (Some 1) (Some 6) bad
                  (line :: rest) st on lg' Hbad) as (evs & Hcalls & ->)
  end.
  rewrite (get_int_accept _ _ _ _ _ _ _ _ v Hint)
    by (split; intros ? [= <-]; lia).
  eexists. split; [|f_equal; f_equal; rewrite <- !app_assoc; reflexivity].
  by rewrite !calls_app, Hcalls.
Qed.

(** With rejected selections only, a pass of the main menu ends when the
    console has run dry, and not before. *)
Lemma main_menu_dry bad st on lg :
  Forall (rejected (Some 1) (Some 6)) bad →
  ∃ evs, calls evs = [] ∧
    main_menu (World bad st on lg)
    = Raised EOFError (World [] st on (lg ++ evs)).
Proof.
  intros Hbad.
  destruct (main_menu_reprompts bad [] st on lg Hbad) as (evs & Hcalls & Hrun).
  rewrite app_nil_r in Hrun.
  exists (evs ++ [Prompt "Selection: "]). split; [by rewrite calls_app, Hcalls|].
  rewrite Hrun. cbn [bind]. rewrite get_int_eof. by rewrite <- app_assoc.
Qed.

(** C8: whatever is on the console, a value returned by the reader lies
    within all the bounds supplied, and it is the value of the first line
    that is an integer within the bounds: every line before it was
    rejected.  A rejected line (not an integer, or out of range) makes the
    reader complain and ask again; an acceptable line makes it return; with
    rejected lines only it never returns (the console runs dry), and the
    bound on its loop is never what stops it.  A pass
    of the main menu, too, ends only after an acceptable selection has been
    read, and ends the menu loop only when that selection is 6.

    The menu loop itself: rejected selections neither end the loop nor
    raise anything; after any run of them the same pass of the loop is
    still asking for the selection, with prompts and complaints added to
    the log, nothing sent to Redis and the database untouched.  When an
    acceptable selection follows, the pass goes on to the operation
    selected and the loop then breaks or goes round as that pass decides;
    when nothing follows, the loop ends by [EOFError], for want of input
    and for no other reason. *)
Theorem get_int_bounded prompt min_value max_value w :
  (∀ v w',
     get_int prompt min_value max_value w = Done v w' →
     in_bounds min_value max_value v ∧
     ∃ bad line,
       stdin w = bad ++ line :: stdin w' ∧
       Forall (rejected min_value max_value) bad ∧
       int (strip line) = Some v) ∧
  (∀ line rest,
     stdin w = line :: rest → rejected min_value max_value line →
     ∃ msg,
       get_int prompt min_value max_value w
       = get_int prompt min_value max_value
           (after w rest (db w) [Prompt prompt; Print msg])) ∧
  (∀ line rest v,
     stdin w = line :: rest →
     int (strip line) = Some v → in_bounds min_value max_value v →
     get_int prompt min_value max_value w
     = Done v (after w rest (db w) [Prompt prompt])) ∧
  (Forall (rejected min_value max_value) (stdin w) →
   ∃ w', get_int prompt min_value max_value w = Raised EOFError w') ∧
  get_int prompt min_value max_value w ≠ OutOfFuel ∧
  (∀ f w',
     main_menu w = Done f w' →
     ∃ bad line rest v,
       stdin w = bad ++ line :: rest ∧
       Forall (rejected (Some 1) (Some 6)) bad ∧
       int (strip line) = Some v ∧ 1 ≤ v ≤ 6 ∧ (f = Break ↔ v = 6)) ∧
  (∀ bad rest,
     stdin w = bad ++ rest → Forall (rejected (Some 1) (Some 6)) bad →
     ∃ evs, calls evs = [] ∧
       main_menu w
       = (selection <- get_int "Selection: " (Some 1) (Some 6);;
          main_choice selection) (after w rest (db w) evs) ∧
       ∀ fuel,
         while_true (S fuel) main_menu w
         = (selection <- get_int "Selection: " (Some 1) (Some 6);;
            f <- main_choice selection;;
            match f with
            | Break => ret tt
            | Continue => while_true fuel main_menu
            end) (after w rest (db w) evs)) ∧
  (∀ bad line rest v,
     stdin w = bad ++ line :: rest →
     Forall (rejected (Some 1) (Some 6)) bad →
     int (strip line) = Some v → 1 ≤ v ≤ 6 →
     ∃ evs, calls evs = [] ∧
       main_menu w = main_choice v (after w rest (db w) evs) ∧
       ∀ fuel,
         while_true (S fuel) main_menu w
         = (f <- main_choice v;;
            match f with
            | Break => ret tt
            | Continue => while_true fuel main_menu
            end) (after w rest (db w) evs)) ∧
  (Forall (rejected (Some 1) (Some 6)) (stdin w) →
   ∃ evs, calls evs = [] ∧
     main_menu w = Raised EOFError (after w [] (db w) evs) ∧
     ∀ fuel,
       while_true (S fuel) main_menu w
       = Raised EOFError (after w [] (db w) evs)).
Proof.
  split; [|split; [|split; [|split; [|split; [|split; [|split; [|split]]]]]]].
  - intros v w' Hrun. split; [by eapply get_int_bounds|].
    apply get_int_inv in Hrun as (bad & line & ? & ? & ? & _). eauto.
  - destruct w as [inp st on lg]. intros line rest Hin Hrej.
    cbn [stdin] in Hin. subst inp.
    apply (get_int_reject prompt min_value max_value line rest st on lg Hrej).
  - destruct w as [inp st on lg]. intros line rest v Hin Hint Hb.
    cbn [stdin] in Hin. subst inp. by apply get_int_accept.
  - apply get_int_all_rejected.
  - apply get_int_total.
  - apply main_menu_inv.
  - destruct w as [inp st on lg]. intros bad rest Hin Hbad.
    cbn [stdin db] in *. subst inp.
    destruct (main_menu_reprompts bad rest st on lg Hbad)
      as (evs & Hcalls & Hrun).
    exists evs. split; [done|]. split; [exact Hrun|].
    intros fuel. cbn [while_true].
    rewrite <- (bind_assoc (get_int "Selection: " (Some 1) (Some 6))
                  main_choice).
    unfold after. cbn [stdin db online log].
    cbn [bind] in *. by rewrite Hrun.
  - destruct w as [inp st on lg]. intros bad line rest v Hin Hbad Hint Hv.
    cbn [stdin db] in *. subst inp.
    destruct (main_menu_selects bad line rest st on lg v Hbad Hint Hv)
      as (evs & Hcalls & Hrun).
    exists evs. split; [done|]. split; [exact Hrun|].
    intros fuel. cbn [while_true bind]. by rewrite Hrun.
  - destruct w as [inp st on lg]. cbn [stdin db]. intros Hbad.
    destruct (main_menu_dry inp st on lg Hbad) as (evs & Hcalls & Hrun).
    exists evs. split; [done|]. split; [exact Hrun|].
    intros fuel. cbn [while_true bind]. by rewrite Hrun.
Qed.

Lemma get_int_bounded_witness :
  let w := fresh ["six"; "7"; " 6 "; "1"] ∅ in
  let w' := after w ["1"] ∅
              [Prompt "Selection: ";
               Print [Lit "Invalid input. Please enter a whole number."];
               Prompt "Selection: ";
               Print [Lit "Please enter a number <= "; Num 6; Lit "."];
               Prompt "Selection: "] in
  let dry := fresh ["six"; "7"; "0"; ""] ∅ in
  (get_int "Selection: " (Some 1) (Some 6) w = Done 6 w' ∧
   in_bounds (Some 1) (Some 6) 6 ∧
   ∃ bad line,
     stdin w = bad ++ line :: stdin w' ∧
     Forall (rejected (Some 1) (Some 6)) bad ∧
     int (strip line) = Some 6) ∧
  (∃ evs, calls evs = [] ∧
     main_menu w
     = (selection <- get_int "Selection: " (Some 1) (Some 6);;
        main_choice selection) (after w [" 6 "; "1"] (db w) evs) ∧
     ∀ fuel,
       while_true (S fuel) main_menu w
       = (selection <- get_int "Selection: " (Some 1) (Some 6);;
          f <- main_choice selection;;
          match f with
          | Break => ret tt
          | Continue => while_true fuel main_menu
          end) (after w [" 6 "; "1"] (db w) evs)) ∧
  (∃ evs, calls evs = [] ∧
     main_menu w = main_choice 6 (after w ["1"] (db w) evs) ∧
     ∀ fuel,
       while_true (S fuel) main_menu w
       = (f <- main_choice 6;;
          match f with
          | Break => ret tt
          | Continue => while_true fuel main_menu
          end) (after w ["1"] (db w) evs)) ∧
  (∃ evs, calls evs = [] ∧
     main_menu dry = Raised EOFError (after dry [] (db dry) evs) ∧
     ∀ fuel,
       while_true (S fuel) main_menu dry
       = Raised EOFError (after dry [] (db dry) evs)).
Proof.
  intros w w' dry.
  assert (get_int "Selection: " (Some 1) (Some 6) w = Done 6 w') as Hrun
    by reflexivity.
  assert (∀ l, l ∈ ["six"; "7"; "0"; ""] → rejected (Some 1) (Some 6) l)
    as Hrej.
  { intros l Hl v Hv [Hlo Hhi].
    specialize (Hlo 1 eq_refl). specialize (Hhi 6 eq_refl).
    repeat (apply elem_of_cons in Hl as [->|Hl];
            [vm_compute in Hv; first [discriminate | injection Hv as <-; lia]|]).
    by apply elem_of_nil in Hl. }
  pose proof (get_int_bounded "Selection: " (Some 1) (Some 6) w)
    as (Hret & _ & _ & _ & _ & _ & Hask & Hsel & _).
  pose proof (get_int_bounded "Selection: " (Some 1) (Some 6) dry)
    as (_ & _ & _ & _ & _ & _ & _ & _ & Hdry).
  split; [|split; [|split]].
  - split; [exact Hrun|]. exact (Hret 6 w' Hrun).
  - apply (Hask ["six"; "7"] [" 6 "; "1"]); [reflexivity|].
    repeat constructor; apply Hrej; repeat constructor.
  - apply (Hsel ["six"; "7"] " 6 " ["1"] 6); [reflexivity| |reflexivity|lia].
    repeat constructor; apply Hrej; repeat constructor.
  - apply Hdry. cbn [stdin dry fresh].
    repeat constructor; apply Hrej; repeat constructor.
Defined.

(** ** Rules for runs *)

Lemma wp_mono {A} (m : M A) (Q Q' : A → world → Prop) (E E' : world → Prop) w :
  wp m Q E w → (∀ a w', Q a w' → Q' a w') → (∀ w', E w' → E' w') →
  wp m Q' E' w.
Proof. unfold wp. destruct (m w); auto. Qed.

Lemma wp_ending {A} (m : M A) Q E w w' :
  wp m Q E w → ending (m w) = Some w' → (∃ a, Q a w') ∨ E w'.
Proof. unfold wp. destruct (m w); cbn; intros H [= <-]; eauto. Qed.

Lemma triple_ret {A} (a : A) (Q : A → world → Prop) E :
  triple (Q a) (ret a) Q E.
Proof. intros w Hw. exact Hw. Qed.

Lemma triple_bind {A B} (m : M A) (f : A → M B) P Q R E :
  triple P m Q E → (∀ a, triple (Q a) (f a) R E) → triple P (bind m f) R E.
Proof.
  intros Hm Hf w Hw. specialize (Hm w Hw). unfold wp in *. cbn [bind].
  destruct (m w) as [a w'| |]; [by apply Hf|done..].
Qed.

Lemma triple_conseq {A} (m : M A) (P P' : world → Prop) Q Q' E E' :
  triple P m Q E →
  (∀ w, P' w → P w) → (∀ a w, Q a w → Q' a w) → (∀ w, E w → E' w) →
  triple P' m Q' E'.
Proof. intros Hm HP HQ HE w Hw. eapply wp_mono; eauto. Qed.

(** A fact that does not depend on the world can be taken out of the
    precondition. *)
Lemma triple_pure {A} (m : M A) (P : world → Prop) (φ : Prop) Q E :
  (φ → triple P m Q E) → triple (λ w, P w ∧ φ) m Q E.
Proof. intros Hm w [Hw Hφ]. by apply Hm. Qed.

Lemma quiet_refl w : quiet w w.
Proof. repeat split. exists []. by rewrite app_nil_r. Qed.

Lemma quiet_trans w1 w2 w3 : quiet w1 w2 → quiet w2 w3 → quiet w1 w3.
Proof.
  intros (Hd1 & Ho1 & evs1 & Hl1 & Hc1) (Hd2 & Ho2 & evs2 & Hl2 & Hc2).
  split; [congruence|]. split; [congruence|].
  exists (evs1 ++ evs2). rewrite Hl2, Hl1, app_assoc. split; [done|].
  by rewrite calls_app, Hc1, Hc2.
Qed.

Lemma quiet_prompt w inp p :
  quiet w {| stdin := inp; db := db w; online := online w;
             log := log w ++ [Prompt p] |}.
Proof. repeat split. by exists [Prompt p]. Qed.

Lemma quiet_print w inp line :
  quiet w {| stdin := inp; db := db w; online := online w;
             log := log w ++ [Print line] |}.
Proof. repeat split. by exists [Print line]. Qed.

Section stable.
Context (P : world → Prop) (HP : stable P).

Lemma triple_print line E : triple P (print line) (λ _, P) E.
Proof. intros w Hw. unfold wp. run. eapply HP; [apply quiet_print|done]. Qed.

Lemma triple_input {B} prompt (g : string → B) :
  triple P (line <- input prompt;; ret (g line)) (λ _, P) P.
Proof.
  intros [inp st on lg] Hw. unfold wp. destruct inp as [|line rest]; run.
  - eapply HP; [|done]. apply (quiet_prompt (World [] st on lg)).
  - eapply HP; [|done]. apply (quiet_prompt (World (line :: rest) st on lg)).
Qed.

Lemma get_int_quiet_from prompt mn mx w0 inp st on lg :
  quiet w0 (World inp st on lg) →
  wp (get_int prompt mn mx) (λ _, quiet w0) (quiet w0) (World inp st on lg).
Proof.
  revert lg. induction inp as [|l inp IH]; intros lg Hq; unfold wp.
  - rewrite get_int_eof. eapply quiet_trans; [done|].
    apply (quiet_prompt (World [] st on lg)).
  - destruct (accept_or_reject mn mx l) as [(u & Hint & Hb)|Hrej].
    + rewrite (get_int_accept _ _ _ _ _ _ _ _ _ Hint Hb).
      eapply quiet_trans; [done|].
      apply (quiet_prompt (World (l :: inp) st on lg)).
    + destruct (get_int_reject prompt mn mx l inp st on lg Hrej) as [msg ->].
      apply IH. eapply quiet_trans; [done|].
      repeat split. by exists [Prompt prompt; Print msg].
Qed.

Lemma get_int_quiet prompt mn mx w :
  wp (get_int prompt mn mx) (λ _, quiet w) (quiet w) w.
Proof. destruct w. apply get_int_quiet_from, quiet_refl. Qed.

Lemma triple_get_int prompt mn mx : triple P (get_int prompt mn mx) (λ _, P) P.
Proof.
  intros w Hw. eapply wp_mono; [apply get_int_quiet|..]; cbn; eauto.
Qed.

End stable.

Lemma triple_for_each {A} (l : list A) (body : A → M unit) P E :
  (∀ x, x ∈ l → triple P (body x) (λ _, P) E) →
  triple P (for_each l body) (λ _, P) E.
Proof.
  induction l as [|x l IH]; intros Hbody; cbn [for_each].
  - apply (triple_ret tt (λ _, P)).
  - eapply triple_bind; [apply Hbody; by left|]. intros [].
    apply IH. intros y Hy. apply Hbody. by right.
Qed.

Lemma triple_while_true fuel (body : M flow) P E :
  triple P body (λ _, P) E → triple P (while_true fuel body) (λ _, P) E.
Proof.
  intros Hbody. induction fuel as [|fuel IH]; cbn [while_true].
  - by intros w _.
  - eapply triple_bind; [exact Hbody|]. intros [|]; [exact IH|].
    apply (triple_ret tt (λ _, P)).
Qed.

(** A loop whose bound is taken from the console. *)
Lemma triple_while_stdin (body : M flow) P E :
  triple P body (λ _, P) E →
  triple P (λ w, while_true (S (length (stdin w))) body w) (λ _, P) E.
Proof. intros Hbody w Hw. by apply (triple_while_true _ body P E Hbody). Qed.

Lemma triple_ret_stay {A} (a : A) (P : world → Prop) E :
  triple P (ret a) (λ _, P) E.
Proof. intros w Hw. exact Hw. Qed.

Create HintDb runs.

(** Takes a triple apart along the structure of the program; the leaves
    are left to the hints in [runs]. *)
Ltac triple_step :=
  cbv beta;
  match goal with
  | |- triple (λ w, _ ∧ _) _ _ _ => apply triple_pure; intros ?
  | |- triple _ (bind (if decide ?φ then _ else _) _) _ _ =>
      destruct (decide φ)
  | |- triple _ (bind (bind (input _) _) _) _ _ =>
      eapply triple_bind; [solve [eauto with runs]|intros ?]
  | |- triple _ (bind (bind _ _) _) _ _ =>
      eapply triple_bind; [|intros ?]
  | |- triple _ (bind (for_each _ _) _) _ _ =>
      eapply triple_bind; [|intros ?]
  | |- triple _ (for_each _ _) _ _ => apply triple_for_each; intros ? ?
  | |- triple _ (λ w, while_true _ _ w) _ _ => apply triple_while_stdin
  | |- triple _ (bind _ _) _ _ =>
      eapply triple_bind; [solve [eauto with runs]|intros ?]
  | |- triple _ (if decide ?φ then _ else _) _ _ => destruct (decide φ)
  | |- triple _ (ret _) _ _ => apply triple_ret_stay
  | |- triple _ _ _ _ => solve [eauto with runs]
  end.

Ltac triple_steps := repeat triple_step.

(** ** The first invariant: no empty key, no empty member *)

Lemma no_blank_smembers key st : no_blank_member st → "" ∉ smembers key st.
Proof.
  intros Hst. unfold smembers. destruct (st !! key) as [s|] eqn:Hs; cbn.
  - by eapply Hst.
  - apply not_elem_of_empty.
Qed.

Lemma no_blank_sadd key members st :
  Forall (λ m, m ≠ "") members → no_blank_member st →
  no_blank_member (sadd key members st).2.
Proof.
  intros Hms Hst k s. unfold sadd. cbn [snd].
  destruct (decide (key = k)) as [->|Hk].
  - rewrite lookup_insert_eq. intros [= <-].
    intros [Hold|Hnew%elem_of_list_to_set]%elem_of_union.
    + by apply (no_blank_smembers k st).
    + rewrite Forall_forall in Hms. by apply (Hms "").
  - rewrite lookup_insert_ne by done. apply Hst.
Qed.

Lemma no_blank_srem key member st :
  no_blank_member st → no_blank_member (srem key member st).2.
Proof.
  intros Hst k s. unfold srem. destruct (decide (member ∈ _)); [|apply Hst].
  cbn [snd]. destruct (decide (_ = ∅)).
  - intros [_ Hs]%lookup_delete_Some. by apply (Hst k).
  - destruct (decide (key = k)) as [->|Hk].
    + rewrite lookup_insert_eq. intros [= <-] [Hin _]%elem_of_difference.
      by apply (no_blank_smembers k st).
    + rewrite lookup_insert_ne by done. apply Hst.
Qed.

Lemma no_blank_del key st : no_blank_member st → no_blank_member (del key st).2.
Proof.
  intros Hst k s. unfold del. destruct (decide _); [|apply Hst]. cbn [snd].
  intros [_ Hs]%lookup_delete_Some. by apply (Hst k).
Qed.

Lemma tidy_stable : stable tidy.
Proof.
  intros w w' (Hdb & _ & evs & Hlog & Hcalls) [Hclean Hst]. unfold tidy, clean_log.
  by rewrite Hdb, Hlog, calls_app, Hcalls, app_nil_r.
Qed.

(** One more command keeps the world tidy when the command is well formed
    and the database it leaves has no empty member. *)
Lemma tidy_call w inp on c r st' :
  tidy w → well_formed c → no_blank_member st' →
  tidy {| stdin := inp; db := st'; online := on; log := log w ++ [Call c r] |}.
Proof.
  intros [Hclean Hst] Hc Hst'. split; [|done]. unfold clean_log. cbn [log].
  rewrite calls_app. apply Forall_app. split; [done|]. by repeat constructor.
Qed.

Lemma tidy_exists key E :
  key ≠ "" → triple tidy (r.exists_ key) (λ _, tidy) E.
Proof. intros Hk w Hw. apply tidy_call; [done..|apply Hw]. Qed.

Lemma tidy_smembers key E :
  key ≠ "" →
  triple tidy (r.smembers key) (λ members w, tidy w ∧ "" ∉ members) E.
Proof.
  intros Hk w Hw. split; [apply tidy_call; [done..|apply Hw]|].
  apply no_blank_smembers, Hw.
Qed.

Lemma tidy_scard key E :
  key ≠ "" → triple tidy (r.scard key) (λ _, tidy) E.
Proof. intros Hk w Hw. apply tidy_call; [done..|apply Hw]. Qed.

Lemma tidy_sadd key members :
  key ≠ "" → Forall (λ m, m ≠ "") members →
  triple tidy (r.sadd key members) (λ _, tidy) tidy.
Proof.
  intros Hk Hms w Hw. unfold wp, r.sadd. destruct members as [|m members].
  - apply tidy_call; [done|by split|apply Hw].
  - apply tidy_call; [done|by split|]. apply no_blank_sadd; [done|apply Hw].
Qed.

Lemma tidy_srem key member E :
  key ≠ "" → member ≠ "" → triple tidy (r.srem key member) (λ _, tidy) E.
Proof.
  intros Hk Hm w Hw. apply tidy_call; [done|by split|].
  apply no_blank_srem, Hw.
Qed.

Lemma tidy_delete key E :
  key ≠ "" → triple tidy (r.delete key) (λ _, tidy) E.
Proof.
  intros Hk w Hw. apply tidy_call; [done|done|]. apply no_blank_del, Hw.
Qed.

Lemma tidy_flushdb E : triple tidy r.flushdb (λ _, tidy) E.
Proof. intros w Hw. apply tidy_call; [done|done|]. by intros k s. Qed.

#[local] Hint Resolve tidy_stable : runs.
#[local] Hint Resolve triple_print triple_input triple_get_int : runs.
#[local] Hint Resolve tidy_exists tidy_smembers tidy_scard tidy_sadd tidy_srem
  tidy_delete tidy_flushdb : runs.

Lemma tidy_retrieve_set_members :
  triple tidy retrieve_set_members (λ _, tidy) tidy.
Proof. unfold retrieve_set_members, format_members. triple_steps. Qed.

Lemma tidy_collect_members count members :
  Forall (λ m, m ≠ "") members →
  triple tidy (collect_members count members)
    (λ res w, tidy w ∧ ∀ ms, res = Some ms → Forall (λ m, m ≠ "") ms) tidy.
Proof.
  revert members. induction count as [|count IH]; intros members Hms;
    cbn [collect_members].
  - intros w Hw. split; [done|]. by intros ms [= <-].
  - triple_steps.
    + intros w Hw. split; [done|]. by intros ms [=].
    + apply IH. apply Forall_app. split; [done|]. by repeat constructor.
Qed.

Lemma tidy_create_new_set : triple tidy create_new_set (λ _, tidy) tidy.
Proof.
  unfold create_new_set. triple_steps.
  eapply triple_bind; [by apply tidy_collect_members|].
  intros [members|]; triple_steps.
Qed.

Lemma tidy_update_choice key choice :
  key ≠ "" → triple tidy (update_choice key choice) (λ _, tidy) tidy.
Proof.
  intros Hk. unfold update_choice. triple_steps.
  eapply triple_bind; [apply tidy_srem; [done|]|intros ?; triple_steps].
  match goal with
  | Hx : ?x ∈ elements _ |- ?x ≠ "" =>
      intros ->; by apply elem_of_elements in Hx
  end.
Qed.

Lemma tidy_update_set_members : triple tidy update_set_members (λ _, tidy) tidy.
Proof.
  unfold update_set_members. triple_steps.
  unfold update_menu. triple_steps. by apply tidy_update_choice.
Qed.

Lemma tidy_delete_set : triple tidy delete_set (λ _, tidy) tidy.
Proof. unfold delete_set. triple_steps. Qed.

Lemma tidy_delete_all_data : triple tidy delete_all_data (λ _, tidy) tidy.
Proof. unfold delete_all_data. triple_steps. Qed.

#[local] Hint Resolve tidy_retrieve_set_members tidy_create_new_set
  tidy_update_set_members tidy_delete_set tidy_delete_all_data : runs.

Lemma tidy_connect_to_redis : triple tidy connect_to_redis (λ _, tidy) tidy.
Proof.
  intros [inp st on lg] [Hclean Hst]. unfold wp, connect_to_redis. run.
  destruct on; run; (split; [|done]); unfold clean_log in *; cbn [log];
    rewrite !calls_app; cbn [calls omap]; rewrite !app_nil_r;
    (apply Forall_app; split; [done|by repeat constructor]).
Qed.

Lemma tidy_main : triple tidy main (λ _, tidy) tidy.
Proof.
  unfold main. triple_steps.
  eapply triple_bind; [apply tidy_connect_to_redis|]. intros []. triple_steps.
  unfold main_menu. triple_steps. unfold main_choice. triple_steps.
Qed.

#[local] Hint Resolve tidy_connect_to_redis tidy_main : runs.

(** ** The second invariant: existence is checked first *)

Lemma confirmed_app key cs cs' : confirmed key cs → confirmed key (cs ++ cs').
Proof.
  intros (n & Hn & Hin). exists n. split; [done|].
  apply elem_of_app. by left.
Qed.

Lemma guarded_nil : guarded [].
Proof. intros pre c r post key Heq. by destruct pre. Qed.

Lemma guarded_snoc evs c r :
  guarded evs →
  (∀ key, target c = Some key → confirmed key (calls evs)) →
  guarded (evs ++ [Call c r]).
Proof.
  intros Hg Hc pre c' r' post key Heq Ht. rewrite calls_app in Heq.
  change (calls [Call c r]) with [(c, r)] in Heq.
  induction post as [|x post _] using rev_ind.
  - apply app_inj_tail in Heq as [<- [= <- <-]]. by apply Hc.
  - rewrite app_comm_cons, app_assoc in Heq.
    apply app_inj_tail in Heq as [Heq _]. by eapply Hg.
Qed.

Lemma guarded_stable : stable (λ w, guarded (log w)).
Proof.
  intros w w' (_ & _ & evs & Hlog & Hcalls) Hg pre c r post key.
  rewrite Hlog, calls_app, Hcalls, app_nil_r. apply Hg.
Qed.

Lemma guarded_at_stable key : stable (guarded_at key).
Proof.
  intros w w' Hq [Hg Hc]. split; [by eapply guarded_stable|].
  destruct Hq as (_ & _ & evs & -> & Hcalls).
  by rewrite calls_app, Hcalls, app_nil_r.
Qed.

(** After the key has been confirmed, a command on that key keeps the log
    guarded. *)
Lemma guarded_at_call key w inp st' on c r :
  guarded_at key w → (∀ k, target c = Some k → k = key) →
  guarded_at key
    {| stdin := inp; db := st'; online := on; log := log w ++ [Call c r] |}.
Proof.
  intros [Hg Hc] Ht. split; cbn [log].
  - apply guarded_snoc; [done|]. intros k Hk. by rewrite (Ht k Hk).
  - rewrite calls_app. by apply confirmed_app.
Qed.

Lemma guarded_exists key E :
  triple (λ w, guarded (log w)) (r.exists_ key)
    (λ found, if decide (found = 0) then λ w, guarded (log w)
              else guarded_at key) E.
Proof.
  intros w Hg. unfold wp. run.
  assert (guarded (log w ++ [Call (EXISTS key) (Int (exists_ key (db w)))]))
    as Hg' by (by apply guarded_snoc).
  destruct (decide (exists_ key (db w) = 0)) as [|Hfound]; [done|].
  split; [done|]. exists (exists_ key (db w)). split; [done|]. cbn [log].
  rewrite calls_app. apply elem_of_app. right. by left.
Qed.

Lemma guarded_at_smembers key E :
  triple (guarded_at key) (r.smembers key) (λ _, guarded_at key) E.
Proof. intros w Hw. apply guarded_at_call; [done|]. by intros k [= <-]. Qed.

Lemma guarded_at_scard key E :
  triple (guarded_at key) (r.scard key) (λ _, guarded_at key) E.
Proof. intros w Hw. apply guarded_at_call; [done|]. by intros k [= <-]. Qed.

Lemma guarded_at_srem key member E :
  triple (guarded_at key) (r.srem key member) (λ _, guarded_at key) E.
Proof. intros w Hw. apply guarded_at_call; [done|]. by intros k [= <-]. Qed.

Lemma guarded_at_sadd key members :
  triple (guarded_at key) (r.sadd key members) (λ _, guarded_at key)
    (guarded_at key).
Proof.
  intros w Hw. unfold wp, r.sadd.
  destruct members; (apply guarded_at_call; [done|]; by intros k [= <-]).
Qed.

#[local] Hint Resolve guarded_stable guarded_at_stable guarded_at_smembers
  guarded_at_scard guarded_at_srem guarded_at_sadd : runs.

Lemma guarded_retrieve_set_members :
  triple (λ w, guarded (log w)) retrieve_set_members
    (λ _ w, guarded (log w)) (λ w, guarded (log w)).
Proof.
  unfold retrieve_set_members, format_members.
  eapply triple_bind; [apply triple_input, guarded_stable|]. intros key.
  destruct (decide (key = "")); [apply triple_print, guarded_stable|].
  eapply triple_bind; [apply guarded_exists|]. intros found. cbv beta.
  destruct (decide (found = 0)); [apply triple_print, guarded_stable|].
  apply (triple_conseq _ (guarded_at key) _ (λ _, guarded_at key) _
           (guarded_at key)); [|done|by intros ? ? []|by intros ? []].
  triple_steps.
Qed.

Lemma guarded_update_choice key choice :
  triple (guarded_at key) (update_choice key choice) (λ _, guarded_at key)
    (guarded_at key).
Proof. unfold update_choice. triple_steps. Qed.

Lemma guarded_update_set_members :
  triple (λ w, guarded (log w)) update_set_members
    (λ _ w, guarded (log w)) (λ w, guarded (log w)).
Proof.
  unfold update_set_members.
  eapply triple_bind; [apply triple_input, guarded_stable|]. intros key.
  destruct (decide (key = "")); [apply triple_print, guarded_stable|].
  eapply triple_bind; [apply guarded_exists|]. intros found. cbv beta.
  destruct (decide (found = 0)); [apply triple_print, guarded_stable|].
  apply (triple_conseq _ (guarded_at key) _ (λ _, guarded_at key) _
           (guarded_at key)); [|done|by intros ? ? []|by intros ? []].
  triple_steps. unfold update_menu. triple_steps.
  apply guarded_update_choice.
Qed.

(** ** The bounds of the loops are never reached *)

Lemma lands_weaken {A} (m : M A) k k' : lands k m → (k' ≤ k)%nat → lands k' m.
Proof. intros Hm Hk w. specialize (Hm w). destruct (m w); [lia|done..]. Qed.

Lemma lands_ret {A} (a : A) : lands 0 (ret a).
Proof. intros w. cbn. lia. Qed.

Lemma lands_bind {A B} (m : M A) (f : A → M B) k1 k2 :
  lands k1 m → (∀ a, lands k2 (f a)) → lands (k1 + k2) (bind m f).
Proof.
  intros Hm Hf w. specialize (Hm w). cbn [bind].
  destruct (m w) as [a w'| |]; [|done..].
  specialize (Hf a w'). destruct (f a w'); [lia|done..].
Qed.

Lemma lands_bind_0 {A B} (m : M A) (f : A → M B) :
  lands 0 m → (∀ a, lands 0 (f a)) → lands 0 (bind m f).
Proof. apply (lands_bind m f 0 0). Qed.

Lemma lands_print line : lands 0 (print line).
Proof. intros w. cbn. lia. Qed.

Lemma lands_input {B} prompt (g : string → B) :
  lands 1 (line <- input prompt;; ret (g line)).
Proof. intros [[|line rest] st on lg]; cbn; [done|lia]. Qed.

Lemma lands_get_int prompt mn mx : lands 1 (get_int prompt mn mx).
Proof.
  intros w. destruct (get_int prompt mn mx w) as [v w'| |] eqn:Hrun; [|done|].
  - apply get_int_inv in Hrun as (bad & line & -> & _).
    rewrite length_app. cbn [length]. lia.
  - by apply get_int_total in Hrun.
Qed.

Lemma lands_exists key : lands 0 (r.exists_ key).
Proof. intros w. cbn. lia. Qed.

Lemma lands_srem key member : lands 0 (r.srem key member).
Proof. intros w. cbn. lia. Qed.

Lemma lands_smembers key : lands 0 (r.smembers key).
Proof. intros w. cbn. lia. Qed.

Lemma lands_scard key : lands 0 (r.scard key).
Proof. intros w. cbn. lia. Qed.

Lemma lands_delete key : lands 0 (r.delete key).
Proof. intros w. cbn. lia. Qed.

Lemma lands_flushdb : lands 0 r.flushdb.
Proof. intros w. cbn. lia. Qed.

Lemma lands_sadd key members : lands 0 (r.sadd key members).
Proof. intros w. unfold r.sadd. destruct members; cbn; [done|lia]. Qed.

Lemma lands_for_each {A} (l : list A) (body : A → M unit) :
  (∀ x, lands 0 (body x)) → lands 0 (for_each l body).
Proof.
  intros Hbody. induction l as [|x l IH]; cbn [for_each].
  - apply lands_ret.
  - by apply lands_bind_0.
Qed.

(** A loop whose every pass takes a line ends before its bound when the
    bound exceeds the number of lines left. *)
Lemma lands_while_true (body : M flow) fuel w :
  lands 1 body → (length (stdin w) < fuel)%nat →
  match while_true fuel body w with
  | Done _ w' => (length (stdin w') ≤ length (stdin w))%nat
  | Raised _ _ => True
  | OutOfFuel => False
  end.
Proof.
  intros Hbody. revert w. induction fuel as [|fuel IH]; intros w Hlen; [lia|].
  cbn [while_true bind]. specialize (Hbody w).
  destruct (body w) as [[|] w'| |]; [|cbn; lia|done..].
  specialize (IH w'). destruct (while_true fuel body w'); lia || (apply IH; lia).
Qed.

Lemma lands_while_stdin (body : M flow) :
  lands 1 body → lands 0 (λ w, while_true (S (length (stdin w))) body w).
Proof.
  intros Hbody w. pose proof (lands_while_true body (S (length (stdin w))) w
                                Hbody ltac:(lia)) as H.
  destruct (while_true _ _ _); [lia|done..].
Qed.

Create HintDb lands.
#[local] Hint Resolve lands_ret lands_print lands_sadd lands_for_each
  lands_exists lands_srem lands_smembers lands_scard lands_delete
  lands_flushdb : lands.
#[local] Hint Extern 1 (lands 0 (bind (input _) _)) =>
  apply (lands_weaken _ 1 0); [apply lands_input|lia] : lands.
#[local] Hint Extern 1 (lands 0 (get_int _ _ _)) =>
  apply (lands_weaken _ 1 0); [apply lands_get_int|lia] : lands.

Ltac lands_step :=
  match goal with
  | |- lands 0 (bind (input _) _) => solve [eauto with lands]
  | |- lands 0 (bind _ _) => apply lands_bind_0; [|intros ?]
  | |- lands 0 (if decide ?φ then _ else _) => destruct (decide φ)
  | |- lands 0 (for_each _ _) => apply lands_for_each; intros ?
  | |- lands 0 _ => solve [eauto with lands]
  end.

Ltac lands_steps := repeat lands_step.

Lemma lands_collect_members count members :
  lands 0 (collect_members count members).
Proof.
  revert members. induction count as [|count IH]; intros members;
    cbn [collect_members]; lands_steps.
Qed.

#[local] Hint Resolve lands_collect_members : lands.

Lemma lands_retrieve_set_members : lands 0 retrieve_set_members.
Proof. unfold retrieve_set_members. lands_steps. Qed.

Lemma lands_create_new_set : lands 0 create_new_set.
Proof.
  unfold create_new_set. lands_steps.
  match goal with |- lands 0 (match ?x with _ => _ end) => destruct x end;
    lands_steps.
Qed.

Lemma lands_update_choice key choice : lands 0 (update_choice key choice).
Proof. unfold update_choice. lands_steps. Qed.

Lemma lands_update_menu key : lands 1 (update_menu key).
Proof.
  unfold update_menu.
  repeat (apply (lands_bind _ _ 0 1); [apply lands_print|intros _]).
  apply (lands_bind _ _ 1 0); [apply lands_get_int|].
  apply lands_update_choice.
Qed.

Lemma lands_update_set_members : lands 0 update_set_members.
Proof.
  unfold update_set_members. lands_steps.
  apply lands_while_stdin, lands_update_menu.
Qed.

Lemma lands_delete_set : lands 0 delete_set.
Proof. unfold delete_set. lands_steps. Qed.

Lemma lands_delete_all_data : lands 0 delete_all_data.
Proof. unfold delete_all_data. lands_steps. Qed.

#[local] Hint Resolve lands_retrieve_set_members lands_create_new_set
  lands_update_set_members lands_delete_set lands_delete_all_data : lands.

Lemma lands_main_menu : lands 1 main_menu.
Proof.
  unfold main_menu.
  repeat (apply (lands_bind _ _ 0 1); [apply lands_print|intros _]).
  apply (lands_bind _ _ 1 0); [apply lands_get_int|].
  intros selection. unfold main_choice. lands_steps.
Qed.

Lemma lands_connect_to_redis : lands 0 connect_to_redis.
Proof.
  intros [inp st on lg]. unfold connect_to_redis. destruct on; cbn; [lia|done].
Qed.

Lemma lands_main : lands 0 main.
Proof.
  unfold main. lands_steps. { apply lands_connect_to_redis. }
  apply lands_while_stdin, lands_main_menu.
Qed.

(** Every operation, and the program, comes to an end. *)
Lemma operations_end op w : op ∈ operations → is_Some (ending (op w)).
Proof.
  intros Hop.
  assert (lands 0 op) as Hlands.
  { unfold operations in Hop.
    repeat (apply elem_of_cons in Hop as [->|Hop]; [eauto with lands|]).
    - apply lands_main.
    - by apply elem_of_nil in Hop. }
  specialize (Hlands w). destruct (op w); cbn; [eauto..|done].
Qed.

(** ** The two invariants of the traffic with Redis *)

Lemma delete_set_run line rest st on lg :
  strip line ≠ "" →
  delete_set (World (line :: rest) st on lg)
  = Done tt
      (World rest (del (strip line) st).2 on
         (lg ++ [Prompt "Enter the key of the set you wish to delete: ";
                 Call (DEL (strip line)) (Int (del (strip line) st).1);
                 Print (if decide ((del (strip line) st).1 = 1)
                        then [Lit "Set '"; Str (strip line);
                              Lit "' deleted successfully."]
                        else [Lit "Key '"; Str (strip line);
                              Lit "' was not found."])])).
Proof.
  intros Hk. unfold delete_set. run. rewrite decide_False by done. run.
  destruct (decide _); run; by rewrite <- !app_assoc.
Qed.

(** Why the first invariant asks for a database without empty members:
    Redis accepts the empty string as a member, and the remove-all choice
    sends back whatever members it was given. *)
Example remove_all_sends_blank_member :
  let w := fresh ["3"] {["k" := {[""]}]} in
  ∃ w', update_menu "k" w = Done Continue w' ∧
        calls (log w')
        = [(SMEMBERS "k", Members {[""]}); (SREM "k" "", Int 1);
           (SCARD "k", Int 0)].
Proof. eexists. split; by vm_compute. Qed.

(** A whole session: one set is created, the program is left. *)
Example main_session :
  let w := fresh ["2"; "colors"; "3"; "red"; "green"; "red"; "6"] ∅ in
  ∃ w', main w = Done tt w' ∧
        stdin w' = [] ∧
        db w' = {["colors" := {["red"; "green"]}]} ∧
        calls (log w')
        = [(PING, Ok); (SADD "colors" ["red"; "green"; "red"], Int 2);
           (SCARD "colors", Int 2)].
Proof. eexists. split; [by vm_compute|]. repeat split; by vm_compute. Qed.

(** C2, as stated, fails for the delete operation: [delete_set] sends
    [DEL] for the key it was given without any [EXISTS] before it. *)
Lemma delete_set_unguarded :
  let w := fresh ["k"] {["k" := {["x"]}]} in
  guarded (log w) ∧
  ∃ w', delete_set w = Done tt w' ∧
        calls (log w') = [(DEL "k", Int 1)] ∧
        ¬ guarded (log w').
Proof.
  split; [apply guarded_nil|].
  eexists. split; [by vm_compute|]. split; [by vm_compute|].
  intros Hg.
  destruct (Hg [] (DEL "k") (Int 1) [] "k" eq_refl eq_refl) as (n & _ & Hin).
  by apply elem_of_nil in Hin.
Qed.

(** C2, amended: every operation of the program, and the program as a
    whole, comes to an end and keeps the first invariant: as long as no
    set of the database holds the empty string (the remove-all choice
    sends back the members Redis returned), no command is sent with an
    empty key or an empty member.  The query and the update operation keep
    the second invariant: no command acts on a key before an [EXISTS] has
    found that key.  The delete operation sends [DEL] for the key at once,
    without [EXISTS], and reports by the number of keys [DEL] removed. *)
Theorem redis_traffic_invariants :
  (∀ op w, op ∈ operations → tidy w →
     ∃ w', ending (op w) = Some w' ∧ tidy w') ∧
  (∀ op w, op ∈ [retrieve_set_members; update_set_members] →
     guarded (log w) →
     ∃ w', ending (op w) = Some w' ∧ guarded (log w')) ∧
  (∀ w line rest,
     stdin w = line :: rest → strip line ≠ "" →
     let key := strip line in
     delete_set w
     = Done tt
         (after w rest (del key (db w)).2
            [Prompt "Enter the key of the set you wish to delete: ";
             Call (DEL key) (Int (del key (db w)).1);
             Print (if decide ((del key (db w)).1 = 1)
                    then [Lit "Set '"; Str key; Lit "' deleted successfully."]
                    else [Lit "Key '"; Str key; Lit "' was not found."])])).
Proof.
  split; [|split].
  - intros op w Hop Hw.
    destruct (operations_end op w Hop) as [w' Hend]. exists w'. split; [done|].
    assert (triple tidy op (λ _, tidy) tidy) as Hop'.
    { unfold operations in Hop.
      repeat (apply elem_of_cons in Hop as [->|Hop]; [eauto with runs|]).
      by apply elem_of_nil in Hop. }
    by destruct (wp_ending op _ _ w w' (Hop' w Hw) Hend) as [[_ ?]|?].
  - intros op w Hop Hw.
    destruct (operations_end op w) as [w' Hend].
    { unfold operations. set_unfold. tauto. }
    exists w'. split; [done|].
    assert (triple (λ w, guarded (log w)) op (λ _ w, guarded (log w))
              (λ w, guarded (log w))) as Hop'.
    { apply elem_of_cons in Hop as [->|Hop];
        [apply guarded_retrieve_set_members|].
      apply list_elem_of_singleton in Hop as ->.
      apply guarded_update_set_members. }
    by destruct (wp_ending op _ _ w w' (Hop' w Hw) Hend) as [[_ ?]|?].
  - intros [inp st on lg] line rest Hin Hk key. cbn [stdin db] in *. subst inp.
    by rewrite delete_set_run.
Qed.

Lemma redis_traffic_invariants_witness :
  let w := fresh ["3"; "colors"; "1"; ""; "2"; "red"; "3"; "4"; "6"]
             {["colors" := {["red"; "green"]}]} in
  ∃ w', ending (main w) = Some w' ∧ tidy w'.
Proof.
  intros w.
  apply (proj1 redis_traffic_invariants main w).
  - unfold operations. do 5 apply list_elem_of_further. apply list_elem_of_here.
  - split.
    + constructor.
    + intros key s Hs Hin. unfold w, fresh in Hs. cbn [db] in Hs.
      apply lookup_singleton_Some in Hs as [_ <-].
      by vm_compute in Hin.
Defined.

(** ** Input is looked at through [strip] only *)

Lemma blind_ret {A} (a : A) : strip_blind (ret a).
Proof. by intros w1 w2 Hw. Qed.

Lemma blind_bind {A B} (m : M A) (f : A → M B) :
  strip_blind m → (∀ a, strip_blind (f a)) → strip_blind (bind m f).
Proof.
  intros Hm Hf w1 w2 Hw. specialize (Hm w1 w2 Hw). cbn [bind].
  destruct (m w1) as [a1 w1'| |], (m w2) as [a2 w2'| |]; try done.
  destruct Hm as [-> Hw']. by apply Hf.
Qed.

Ltac blind_prim :=
  let Hin := fresh in let Hdb := fresh in
  let Hon := fresh in let Hlog := fresh in
  intros [? ? ? ?] [? ? ? ?] (Hin & Hdb & Hon & Hlog);
  cbn [stdin db online log] in *; subst; cbn; repeat split; done.

Lemma blind_print line : strip_blind (print line).
Proof. blind_prim. Qed.

Lemma blind_raise {A} e : strip_blind (raise (A := A) e).
Proof. blind_prim. Qed.

Lemma blind_exists key : strip_blind (r.exists_ key).
Proof. blind_prim. Qed.

Lemma blind_srem key member : strip_blind (r.srem key member).
Proof. blind_prim. Qed.

Lemma blind_smembers key : strip_blind (r.smembers key).
Proof. blind_prim. Qed.

Lemma blind_scard key : strip_blind (r.scard key).
Proof. blind_prim. Qed.

Lemma blind_delete key : strip_blind (r.delete key).
Proof. blind_prim. Qed.

Lemma blind_flushdb : strip_blind r.flushdb.
Proof. blind_prim. Qed.

Lemma blind_sadd key members : strip_blind (r.sadd key members).
Proof. unfold r.sadd. destruct members; blind_prim. Qed.

(** A line that is read and stripped at once: what comes out is the same
    in alike worlds. *)
Lemma blind_input {B} prompt (g : string → B) :
  strip_blind (line <- input prompt;; ret (g (strip line))).
Proof.
  intros [inp1 ? ? ?] [inp2 ? ? ?] (Hin & Hdb & Hon & Hlog).
  cbn [stdin db online log] in *. subst.
  destruct inp1 as [|l1 inp1], inp2 as [|l2 inp2]; try done.
  injection Hin as Hl Hin. cbn. rewrite Hl. repeat split; done.
Qed.

Lemma blind_input_strip prompt :
  strip_blind (line <- input prompt;; ret (strip line)).
Proof. apply (blind_input prompt id). Qed.

Lemma blind_input_lower prompt :
  strip_blind (line <- input prompt;; ret (lower (strip line))).
Proof. apply (blind_input prompt lower). Qed.

Lemma blind_for_each {A} (l : list A) (body : A → M unit) :
  (∀ x, strip_blind (body x)) → strip_blind (for_each l body).
Proof.
  intros Hbody. induction l as [|x l IH]; cbn [for_each].
  - apply blind_ret.
  - by apply blind_bind.
Qed.

Lemma blind_while_true fuel (body : M flow) :
  strip_blind body → strip_blind (while_true fuel body).
Proof.
  intros Hbody. induction fuel as [|fuel IH]; cbn [while_true]; [done|].
  apply blind_bind; [done|]. intros [|]; [done|apply blind_ret].
Qed.

Lemma alike_length w1 w2 :
  alike w1 w2 → length (stdin w1) = length (stdin w2).
Proof.
  intros [Hin _]. by rewrite <- (length_fmap strip (stdin w1)), Hin, length_fmap.
Qed.

Lemma blind_while_stdin (body : M flow) :
  strip_blind body →
  strip_blind (λ w, while_true (S (length (stdin w))) body w).
Proof.
  intros Hbody w1 w2 Hw. rewrite (alike_length w1 w2 Hw).
  by apply blind_while_true.
Qed.

Create HintDb blind.
#[local] Hint Resolve blind_ret blind_print blind_raise blind_exists blind_srem
  blind_smembers blind_scard blind_delete blind_flushdb blind_sadd
  blind_input_strip blind_input_lower : blind.

Ltac blind_step :=
  match goal with
  | |- strip_blind (bind (input _) _) => solve [eauto with blind]
  | |- strip_blind (bind (if decide ?φ then _ else _) _) => destruct (decide φ)
  | |- strip_blind (bind _ _) => apply blind_bind; [|intros ?]
  | |- strip_blind (if decide ?φ then _ else _) => destruct (decide φ)
  | |- strip_blind (if ?b then _ else _) => destruct b
  | |- strip_blind (match ?x with _ => _ end) => destruct x
  | |- strip_blind (for_each _ _) => apply blind_for_each; intros ?
  | |- strip_blind (λ w, while_true _ _ w) => apply blind_while_stdin
  | |- strip_blind _ => solve [eauto with blind]
  end.

Ltac blind_steps := repeat blind_step.

Lemma blind_get_int_pass prompt mn mx : strip_blind (get_int_pass prompt mn mx).
Proof. unfold get_int_pass. blind_steps. Qed.

Lemma blind_get_int prompt mn mx : strip_blind (get_int prompt mn mx).
Proof.
  intros w1 w2 Hw. unfold get_int. rewrite (alike_length w1 w2 Hw).
  generalize (S (length (stdin w2))). intros fuel. revert w1 w2 Hw.
  change (strip_blind (get_int_loop fuel prompt mn mx)).
  induction fuel as [|fuel IH]; cbn [get_int_loop]; [done|].
  apply blind_bind; [apply blind_get_int_pass|]. intros [[]|v]; [done|].
  apply blind_ret.
Qed.

#[local] Hint Resolve blind_get_int : blind.

Lemma blind_collect_members count members :
  strip_blind (collect_members count members).
Proof.
  revert members. induction count as [|count IH]; intros members;
    cbn [collect_members]; blind_steps.
Qed.

#[local] Hint Resolve blind_collect_members : blind.

Lemma blind_retrieve_set_members : strip_blind retrieve_set_members.
Proof. unfold retrieve_set_members. blind_steps. Qed.

Lemma blind_create_new_set : strip_blind create_new_set.
Proof. unfold create_new_set. blind_steps. Qed.

Lemma blind_update_menu key : strip_blind (update_menu key).
Proof. unfold update_menu. blind_steps. unfold update_choice. blind_steps. Qed.

Lemma blind_update_set_members : strip_blind update_set_members.
Proof. unfold update_set_members. blind_steps. apply blind_update_menu. Qed.

Lemma blind_delete_set : strip_blind delete_set.
Proof. unfold delete_set. blind_steps. Qed.

Lemma blind_delete_all_data : strip_blind delete_all_data.
Proof. unfold delete_all_data. blind_steps. Qed.

#[local] Hint Resolve blind_retrieve_set_members blind_create_new_set
  blind_update_set_members blind_delete_set blind_delete_all_data : blind.

Lemma blind_connect_to_redis : strip_blind connect_to_redis.
Proof.
  intros [? ? on1 ?] [? ? on2 ?] (Hin & Hdb & Hon & Hlog).
  cbn [stdin db online log] in *. subst. unfold connect_to_redis.
  destruct on2; cbn; repeat split; done.
Qed.

Lemma blind_main_menu : strip_blind main_menu.
Proof. unfold main_menu. blind_steps. unfold main_choice. blind_steps. Qed.

Lemma blind_main : strip_blind main.
Proof.
  unfold main. blind_steps.
  - apply blind_connect_to_redis.
  - apply blind_main_menu.
Qed.

Lemma alike_stripped w : alike w (stripped w).
Proof.
  repeat split. cbn [stdin stripped]. rewrite <- list_fmap_compose.
  apply list_fmap_ext. intros _ line _. cbn. by rewrite TextFacts.strip_strip.
Qed.

Lemma blank_key_aborts (op : M unit) prompt (rest_of : string → M unit)
    line rest st on lg :
  op = (key <- (line <- input prompt;; ret (strip line));;
        if decide (key = "") then print [Lit "Key cannot be empty."]
        else rest_of key) →
  all_space line = true →
  op (World (line :: rest) st on lg)
  = Done tt (World rest st on
               (lg ++ [Prompt prompt; Print [Lit "Key cannot be empty."]])).
Proof.
  intros -> Hsp%TextFacts.strip_all_space. run.
  rewrite decide_True by done. run. by rewrite <- app_assoc.
Qed.

(** C10: every line read from the console is stripped of leading and
    trailing white space before anything else is done with it.  Hence no
    operation, nor the program as a whole, nor the integer reader, can
    tell two consoles apart whose lines agree once stripped: the result,
    the database and the log, which holds every command sent to Redis, come
    out the same; in particular stripping the lines beforehand changes
    nothing.  A line of white space only strips to the empty string: as a
    key it aborts the create, query, update and delete operations with the
    message of a blank key, and as a confirmation it cancels the deletion
    of all data, and in either case nothing is sent to Redis. *)
Theorem input_is_stripped :
  (∀ op, op ∈ operations → strip_blind op) ∧
  (∀ prompt min_value max_value,
     strip_blind (get_int prompt min_value max_value)) ∧
  (∀ w, alike w (stripped w)) ∧
  (∀ line, all_space line = true ↔ strip line = "") ∧
  (∀ w line rest,
     stdin w = line :: rest → all_space line = true →
     let blank_key prompt :=
       Done tt (after w rest (db w)
                  [Prompt prompt; Print [Lit "Key cannot be empty."]]) in
     alike w (typing ("" :: rest) w) ∧
     create_new_set w = blank_key "Enter the key you wish to add: " ∧
     retrieve_set_members w = blank_key "Enter the key you wish to query: " ∧
     update_set_members w
     = blank_key "Enter the key of the set you wish to update: " ∧
     delete_set w = blank_key "Enter the key of the set you wish to delete: " ∧
     delete_all_data w
     = Done tt
         (after w rest (db w)
            [Prompt "Are you sure you want to delete ALL data from the database? (y/n): ";
             Print [Lit "Delete all canceled."]])).
Proof.
  split; [|split; [|split; [|split]]].
  - intros op Hop. unfold operations in Hop.
    repeat (apply elem_of_cons in Hop as [->|Hop]; [eauto with blind|]).
    + apply blind_main.
    + by apply elem_of_nil in Hop.
  - apply blind_get_int.
  - apply alike_stripped.
  - intros line. split; [apply TextFacts.strip_all_space|apply TextFacts.strip_empty].
  - intros [inp st on lg] line rest Hin Hsp blank_key.
    cbn [stdin db] in *. subst inp. unfold blank_key, after.
    cbn [stdin db online log].
    split; [|split; [|split; [|split; [|split]]]].
    + repeat split. cbn [stdin typing fmap list_fmap]. f_equal.
      by apply TextFacts.strip_all_space.
    + by eapply blank_key_aborts.
    + by eapply blank_key_aborts.
    + by eapply blank_key_aborts.
    + by eapply blank_key_aborts.
    + apply TextFacts.strip_all_space in Hsp. unfold delete_all_data. run.
      rewrite Hsp. rewrite decide_False by done. run.
      by rewrite <- app_assoc.
Qed.

Lemma input_is_stripped_witness :
  let st : store := {["k" := {["x"]}]} in
  same_outcome (delete_set (fresh ["  k  "] st)) (delete_set (fresh ["k"] st)) ∧
  delete_set (fresh ["   "] st)
  = Done tt (after (fresh ["   "] st) [] st
               [Prompt "Enter the key of the set you wish to delete: ";
                Print [Lit "Key cannot be empty."]]).
Proof.
  intros st. split.
  - apply (proj1 input_is_stripped delete_set).
    + unfold operations. do 3 apply list_elem_of_further. apply list_elem_of_here.
    + repeat split.
  - destruct (proj2 (proj2 (proj2 (proj2 input_is_stripped)))
                (fresh ["   "] st) "   " [])
      as (_ & _ & _ & _ & Hdel & _).
    + reflexivity.
    + reflexivity.
    + exact Hdel.
Defined.

(** * Further properties of the operations *)

(** ** Deleting a set *)

(** X1: for a key that is not blank, the delete operation sends one [DEL]
    and nothing else.  When the key exists the reply is 1, success is
    reported and the key is gone afterwards ([EXISTS] would find nothing);
    when it does not, the reply is 0, "not found" is reported and the
    database is as it was. *)
Theorem delete_set_outcome w line rest :
  stdin w = line :: rest → strip line ≠ "" →
  let key := strip line in
  let ask := Prompt "Enter the key of the set you wish to delete: " in
  (is_Some (db w !! key) →
   delete_set w
   = Done tt
       (after w rest (delete key (db w))
          [ask; Call (DEL key) (Int 1);
           Print [Lit "Set '"; Str key; Lit "' deleted successfully."]]) ∧
   exists_ key (delete key (db w)) = 0 ∧
   smembers key (delete key (db w)) = ∅) ∧
  (db w !! key = None →
   delete_set w
   = Done tt
       (after w rest (db w)
          [ask; Call (DEL key) (Int 0);
           Print [Lit "Key '"; Str key; Lit "' was not found."]])).
Proof.
  destruct w as [inp st on lg]. intros Hin Hk key ask.
  cbn [stdin db] in *. subst inp. rewrite delete_set_run by done.
  fold key. unfold after. cbn [stdin db online log]. split.
  - intros Hsome. unfold del. rewrite decide_True by done. cbn [fst snd].
    rewrite decide_True by done. repeat split.
    + apply exists_absent, lookup_delete_eq.
    + apply smembers_delete.
  - intros Hnone. unfold del. rewrite decide_False; [|rewrite Hnone; by intros [? ?]].
    cbn [fst snd]. by rewrite decide_False.
Qed.

Lemma delete_set_outcome_witness :
  let w := fresh [" colors "; "next"] {["colors" := {["red"]}]} in
  delete_set w
  = Done tt
      (after w ["next"] (delete "colors" (db w))
         [Prompt "Enter the key of the set you wish to delete: ";
          Call (DEL "colors") (Int 1);
          Print [Lit "Set '"; Str "colors"; Lit "' deleted successfully."]]) ∧
  exists_ "colors" (delete "colors" (db w)) = 0.
Proof.
  intros w.
  destruct (delete_set_outcome w " colors " ["next"]) as [Hsome _].
  - reflexivity.
  - by vm_compute.
  - destruct Hsome as (Hrun & Hex & _).
    + vm_compute. eexists. reflexivity.
    + split; [exact Hrun|exact Hex].
Defined.

(** X2: a query of a key that was just put to the delete operation reports
    that the key does not exist, whether the key existed before or not. *)
Theorem delete_then_query w dline qline rest :
  stdin w = dline :: qline :: rest →
  strip dline ≠ "" → strip qline = strip dline →
  let key := strip dline in
  ∃ w1,
    delete_set w = Done tt w1 ∧
    retrieve_set_members w1
    = Done tt
        (after w1 rest (db w1)
           [Prompt "Enter the key you wish to query: ";
            Call (EXISTS key) (Int 0);
            Print [Lit "Key '"; Str key; Lit "' does not exist."]]).
Proof.
  destruct w as [inp st on lg]. intros Hin Hk Hq key.
  cbn [stdin db] in *. subst inp.
  eexists. split; [by apply delete_set_run|].
  rewrite retrieve_set_members_absent.
  - unfold after. cbn [stdin db online log]. by rewrite Hq.
  - by rewrite Hq.
  - rewrite Hq. unfold del. destruct (decide (is_Some _)) as [|Hnone]; cbn [snd].
    + apply lookup_delete_eq.
    + by apply eq_None_not_Some.
Qed.

Lemma delete_then_query_witness :
  let w := fresh ["colors"; "colors"] {["colors" := {["red"]}]} in
  ∃ w1,
    delete_set w = Done tt w1 ∧
    retrieve_set_members w1
    = Done tt
        (after w1 [] (db w1)
           [Prompt "Enter the key you wish to query: ";
            Call (EXISTS "colors") (Int 0);
            Print [Lit "Key '"; Str "colors"; Lit "' does not exist."]]).
Proof.
  intros w. apply (delete_then_query w "colors" "colors" []).
  - reflexivity.
  - by vm_compute.
  - reflexivity.
Defined.

(** X3: after a confirmed deletion of all data a query of any key reports
    that the key does not exist. *)
Theorem flush_then_query w cline qline rest :
  stdin w = cline :: qline :: rest →
  lower (strip cline) = "y" → strip qline ≠ "" →
  ∃ w1,
    delete_all_data w = Done tt w1 ∧ db w1 = ∅ ∧
    retrieve_set_members w1
    = Done tt
        (after w1 rest ∅
           [Prompt "Enter the key you wish to query: ";
            Call (EXISTS (strip qline)) (Int 0);
            Print [Lit "Key '"; Str (strip qline); Lit "' does not exist."]]).
Proof.
  destruct w as [inp st on lg]. intros Hin Hy Hq.
  cbn [stdin db] in *. subst inp.
  eexists. split.
  { unfold delete_all_data. run. rewrite decide_True by done. run. reflexivity. }
  split; [done|]. unfold flushdb.
  by rewrite retrieve_set_members_absent.
Qed.

Lemma flush_then_query_witness :
  let w := fresh [" Y"; "colors"] {["colors" := {["red"]}]} in
  ∃ w1,
    delete_all_data w = Done tt w1 ∧ db w1 = ∅ ∧
    retrieve_set_members w1
    = Done tt
        (after w1 [] ∅
           [Prompt "Enter the key you wish to query: ";
            Call (EXISTS (strip "colors")) (Int 0);
            Print [Lit "Key '"; Str (strip "colors"); Lit "' does not exist."]]).
Proof.
  intros w. apply (flush_then_query w " Y" "colors" []).
  - reflexivity.
  - reflexivity.
  - by vm_compute.
Defined.

(** ** Querying *)

Lemma kept_db_stable st : stable (λ w, db w = st).
Proof. intros w w' (Hdb & _) Hw. congruence. Qed.

Lemma kept_db_exists st key E :
  triple (λ w, db w = st) (r.exists_ key) (λ _ w, db w = st) E.
Proof. intros w Hw. exact Hw. Qed.

Lemma kept_db_smembers st key E :
  triple (λ w, db w = st) (r.smembers key) (λ _ w, db w = st) E.
Proof. intros w Hw. exact Hw. Qed.

Lemma kept_db_scard st key E :
  triple (λ w, db w = st) (r.scard key) (λ _ w, db w = st) E.
Proof. intros w Hw. exact Hw. Qed.

#[local] Hint Resolve kept_db_stable kept_db_exists kept_db_smembers
  kept_db_scard : runs.

(** X4: the query operation only reads: however it ends, on whatever
    input, the database is the one it started from. *)
Theorem retrieve_set_members_reads_only w w' :
  ending (retrieve_set_members w) = Some w' → db w' = db w.
Proof.
  intros Hend.
  assert (triple (λ w0, db w0 = db w) retrieve_set_members
            (λ _ w0, db w0 = db w) (λ w0, db w0 = db w)) as Hop.
  { unfold retrieve_set_members, format_members. triple_steps. }
  by destruct (wp_ending _ _ _ w w' (Hop w eq_refl) Hend) as [[_ ?]|?].
Qed.

Lemma retrieve_set_members_reads_only_witness :
  let w := fresh ["colors"] {["colors" := {["red"]}]} in
  ∃ w', ending (retrieve_set_members w) = Some w' ∧ db w' = db w.
Proof.
  intros w.
  destruct (operations_end retrieve_set_members w) as [w' Hend].
  { apply list_elem_of_here. }
  exists w'. split; [exact Hend|].
  exact (retrieve_set_members_reads_only w w' Hend).
Defined.

(** X5: a query of a key that does not exist sends [EXISTS] and nothing
    more, reports that the key does not exist, and leaves the following
    lines on the console. *)
Theorem retrieve_set_members_missing_key w line rest :
  stdin w = line :: rest → strip line ≠ "" → db w !! strip line = None →
  retrieve_set_members w
  = Done tt
      (after w rest (db w)
         [Prompt "Enter the key you wish to query: ";
          Call (EXISTS (strip line)) (Int 0);
          Print [Lit "Key '"; Str (strip line); Lit "' does not exist."]]).
Proof.
  destruct w as [inp st on lg]. intros Hin Hk Hnone.
  cbn [stdin db] in *. subst inp. by apply retrieve_set_members_absent.
Qed.

Lemma retrieve_set_members_missing_key_witness :
  let w := fresh ["shapes"; "6"] {["colors" := {["red"]}]} in
  retrieve_set_members w
  = Done tt
      (after w ["6"] (db w)
         [Prompt "Enter the key you wish to query: ";
          Call (EXISTS (strip "shapes")) (Int 0);
          Print [Lit "Key '"; Str (strip "shapes"); Lit "' does not exist."]]).
Proof.
  intros w. apply (retrieve_set_members_missing_key w "shapes" ["6"]).
  - reflexivity.
  - by vm_compute.
  - reflexivity.
Defined.

(** X6: as long as the database keeps no empty set, which is how Redis
    behaves, the query operation never prints "(No members found)": a key
    that exists has members, and for a key that does not exist the
    operation stops before that line. *)
Theorem retrieve_set_members_never_empty w w' :
  no_empty_set (db w) →
  ending (retrieve_set_members w) = Some w' →
  ∃ evs, log w' = log w ++ evs ∧ Print [Lit "(No members found)"] ∉ evs.
Proof.
  destruct w as [[|line rest] st on lg]; intros Hst; cbn [db] in Hst.
  { intros [= <-]. eexists. split; [reflexivity|].
    intros Hin. apply list_elem_of_singleton in Hin. discriminate. }
  destruct (decide (strip line = "")) as [Hk|Hk].
  { unfold retrieve_set_members. run. rewrite decide_True by done. run.
    intros [= <-]. cbn [log]. rewrite <- app_assoc. eexists. split; [reflexivity|].
    intros Hin. cbn [app] in Hin.
    repeat (apply elem_of_cons in Hin as [Hin|Hin]; [discriminate|]).
    by apply elem_of_nil in Hin. }
  destruct (st !! strip line) as [s|] eqn:Hs.
  - rewrite (retrieve_set_members_present _ _ _ _ _ s) by done.
    intros [= <-]. cbn [log]. eexists. split; [reflexivity|].
    unfold query_events. rewrite decide_False by by eapply Hst.
    intros Hin. cbn [app] in Hin.
    repeat (apply elem_of_cons in Hin as [Hin|Hin]; [discriminate|]).
    apply elem_of_app in Hin as [Hin|Hin].
    + apply list_elem_of_fmap in Hin as (m & Hm & _). discriminate.
    + repeat (apply elem_of_cons in Hin as [Hin|Hin]; [discriminate|]).
      by apply elem_of_nil in Hin.
  - rewrite retrieve_set_members_absent by done.
    intros [= <-]. cbn [log]. eexists. split; [reflexivity|].
    intros Hin.
    repeat (apply elem_of_cons in Hin as [Hin|Hin]; [discriminate|]).
    by apply elem_of_nil in Hin.
Qed.

Lemma retrieve_set_members_never_empty_witness :
  let w := fresh ["colors"] {["colors" := {["red"]}]} in
  ∃ w' evs,
    ending (retrieve_set_members w) = Some w' ∧
    log w' = log w ++ evs ∧ Print [Lit "(No members found)"] ∉ evs.
Proof.
  intros w.
  destruct (operations_end retrieve_set_members w) as [w' Hend].
  { apply list_elem_of_here. }
  destruct (retrieve_set_members_never_empty w w') as (evs & Hlog & Hnot).
  - intros key s Hs Hempty. unfold w, fresh in Hs. cbn [db] in Hs.
    apply lookup_singleton_Some in Hs as [_ <-]. by vm_compute in Hempty.
  - exact Hend.
  - exists w', evs. split; [exact Hend|]. split; [exact Hlog|exact Hnot].
Defined.

(** ** The update operation and its sub-menu *)

Lemma while_true_continue (body : M flow) fuel w w' :
  body w = Done Continue w' →
  while_true (S fuel) body w = while_true fuel body w'.
Proof. intros Hbody. cbn [while_true]. by rewrite (bind_done _ _ _ _ _ Hbody). Qed.

Lemma while_true_break (body : M flow) fuel w w' :
  body w = Done Break w' → while_true (S fuel) body w = Done tt w'.
Proof. intros Hbody. cbn [while_true]. by rewrite (bind_done _ _ _ _ _ Hbody). Qed.

Lemma sadd_new key member st :
  member ∉ smembers key st →
  (sadd key [member] st).1 = 1 ∧
  smembers key (sadd key [member] st).2 = smembers key st ∪ {[member]} ∧
  scard key (sadd key [member] st).2 = scard key st + 1.
Proof.
  intros Hnew.
  assert (smembers key (sadd key [member] st).2 = smembers key st ∪ {[member]})
    as Hs.
  { unfold sadd. cbn [snd list_to_set]. rewrite smembers_insert.
    by rewrite (right_id_L ∅ (∪)). }
  assert (size (smembers key st ∪ {[member]}) = S (size (smembers key st)))
    as Hsize.
  { rewrite size_union by (intros x ? ->%elem_of_singleton; done).
    rewrite size_singleton. lia. }
  split; [|split; [done|]].
  - unfold sadd. cbn [fst list_to_set]. rewrite (right_id_L ∅ (∪)). lia.
  - unfold scard. rewrite Hs. lia.
Qed.

Section update_more.
Context (key : string) (on : bool).

Lemma update_choice_add mline rest st lg :
  strip mline ≠ "" →
  let member := strip mline in
  let added := (sadd key [member] st).1 in
  let st' := (sadd key [member] st).2 in
  update_choice key 1 (World (mline :: rest) st on lg)
  = Done Continue
      (World rest st' on
         (lg ++ [Prompt "Enter the member value to add: ";
                 Call (SADD key [member]) (Int added);
                 Print (if decide (added = 1)
                        then [Lit "Added member '"; Str member;
                              Lit "' to set '"; Str key; Lit "'."]
                        else [Lit "Member '"; Str member;
                              Lit "' already existed in set '"; Str key;
                              Lit "'."]);
                 Call (SCARD key) (Int (scard key st'));
                 Print [Lit "The cardinality of the set is now: ";
                        Num (scard key st')]])).
Proof.
  intros Hm member added st'. unfold update_choice.
  rewrite decide_True by done. run. rewrite decide_False by done. run.
  rewrite r_sadd_some by done. cbn [db stdin online log]. run.
  fold member added st'. destruct (decide (added = 1)); run;
    by rewrite <- !app_assoc.
Qed.

Lemma update_choice_exit inp st lg :
  update_choice key 4 (World inp st on lg)
  = Done Break (World inp st on (lg ++ [Print [Lit "Exiting Update Menu..."]])).
Proof.
  unfold update_choice. rewrite !(decide_False (P := 4 = _)) by done.
  by rewrite decide_True.
Qed.

Lemma update_choice_remove_all_empty rest st lg :
  smembers key st = ∅ →
  update_choice key 3 (World rest st on lg)
  = Done Continue
      (World rest st on
         (lg ++ [Print [Lit "Removing all set members..."];
                 Call (SMEMBERS key) (Members ∅);
                 Print [Lit "Set already has no members."];
                 Call (SCARD key) (Int 0);
                 Print [Lit "The cardinality of the set is now: "; Num 0]])).
Proof.
  intros Hempty. unfold update_choice.
  rewrite !(decide_False (P := 3 = _)) by done.
  rewrite decide_True by done. run. rewrite Hempty.
  rewrite decide_True by done. run.
  unfold scard. rewrite Hempty, size_empty. by rewrite <- !app_assoc.
Qed.

(** With a key that exists the operation enters the loop of the sub-menu. *)
Lemma update_set_members_enters kline rest st lg :
  strip kline = key → key ≠ "" → is_Some (st !! key) →
  update_set_members (World (kline :: rest) st on lg)
  = while_true (S (length rest)) (update_menu key)
      (World rest st on
         (lg ++ [Prompt "Enter the key of the set you wish to update: ";
                 Call (EXISTS key) (Int 1)])).
Proof.
  intros Hk Hne Hsome. unfold update_set_members. run. rewrite Hk.
  rewrite decide_False by done. run.
  rewrite exists_present by done. rewrite decide_False by done.
  cbn [stdin]. by rewrite <- !app_assoc.
Qed.

End update_more.

(** X7: the update operation on a key that does not exist sends [EXISTS]
    and nothing more, reports that the key does not exist and does not
    enter its sub-menu: the following lines stay on the console. *)
Theorem update_set_members_missing_key w line rest :
  stdin w = line :: rest → strip line ≠ "" → db w !! strip line = None →
  update_set_members w
  = Done tt
      (after w rest (db w)
         [Prompt "Enter the key of the set you wish to update: ";
          Call (EXISTS (strip line)) (Int 0);
          Print [Lit "Key '"; Str (strip line); Lit "' does not exist."]]).
Proof.
  destruct w as [inp st on lg]. intros Hin Hk Hnone.
  cbn [stdin db] in *. subst inp. unfold update_set_members. run.
  rewrite decide_False by done. run.
  rewrite exists_absent by done. rewrite decide_True by done. run.
  unfold after. cbn [stdin db online log]. by rewrite <- !app_assoc.
Qed.

Lemma update_set_members_missing_key_witness :
  let w := fresh ["shapes"; "1"; "round"] {["colors" := {["red"]}]} in
  update_set_members w
  = Done tt
      (after w ["1"; "round"] (db w)
         [Prompt "Enter the key of the set you wish to update: ";
          Call (EXISTS (strip "shapes")) (Int 0);
          Print [Lit "Key '"; Str (strip "shapes"); Lit "' does not exist."]]).
Proof.
  intros w. apply (update_set_members_missing_key w "shapes" ["1"; "round"]).
  - reflexivity.
  - by vm_compute.
  - reflexivity.
Defined.

(** X8: in the update sub-menu, adding a member that is not yet in the set
    sends one [SADD] that replies 1, reports the member as added, and the
    cardinality read back is larger by exactly 1; the set is the old one
    with the member, and no other key changes. *)
Theorem update_menu_adds_new_member key w bad cline mline rest :
  stdin w = bad ++ cline :: mline :: rest →
  Forall (rejected (Some 1) (Some 4)) bad →
  int (strip cline) = Some 1 → strip mline ≠ "" →
  strip mline ∉ smembers key (db w) →
  let member := strip mline in
  ∃ evs st', calls evs = [] ∧
    update_menu key w
    = Done Continue
        (after w rest st'
           (evs ++ [Prompt "Enter the member value to add: ";
                    Call (SADD key [member]) (Int 1);
                    Print [Lit "Added member '"; Str member;
                           Lit "' to set '"; Str key; Lit "'."];
                    Call (SCARD key) (Int (scard key (db w) + 1));
                    Print [Lit "The cardinality of the set is now: ";
                           Num (scard key (db w) + 1)]])) ∧
    smembers key st' = smembers key (db w) ∪ {[member]} ∧
    ∀ key', key' ≠ key → st' !! key' = db w !! key'.
Proof.
  destruct w as [inp st on lg]. intros Hin Hbad Hint Hm Hnew member.
  cbn [stdin db] in *. subst inp.
  destruct (update_menu_selects key on bad cline (mline :: rest) st lg 1
              Hbad Hint) as (evs & Hcalls & ->); [lia|].
  destruct (sadd_new key member st Hnew) as (Hr & Hs & Hcard).
  exists evs, (sadd key [member] st).2. split; [done|]. split; [|split; [done|]].
  - rewrite update_choice_add by done. fold member. rewrite Hr, Hcard.
    rewrite decide_True by done.
    unfold after. cbn [stdin db online log]. by rewrite <- app_assoc.
  - intros key' Hne. unfold sadd. cbn [snd]. by rewrite lookup_insert_ne.
Qed.

Lemma update_menu_adds_new_member_witness :
  let w := fresh ["1"; "blue"] {["colors" := {["red"]}]} in
  ∃ evs st', calls evs = [] ∧
    update_menu "colors" w
    = Done Continue
        (after w [] st'
           (evs ++ [Prompt "Enter the member value to add: ";
                    Call (SADD "colors" [strip "blue"]) (Int 1);
                    Print [Lit "Added member '"; Str (strip "blue");
                           Lit "' to set '"; Str "colors"; Lit "'."];
                    Call (SCARD "colors") (Int (scard "colors" (db w) + 1));
                    Print [Lit "The cardinality of the set is now: ";
                           Num (scard "colors" (db w) + 1)]])).
Proof.
  intros w.
  destruct (update_menu_adds_new_member "colors" w [] "1" "blue" [])
    as (evs & st' & Hcalls & Hrun & _).
  - reflexivity.
  - constructor.
  - reflexivity.
  - by vm_compute.
  - by vm_compute.
  - exists evs, st'. split; [exact Hcalls|exact Hrun].
Defined.

(** ** Results and exceptions *)

Lemma yields_ret {A} (a : A) (Q : A → Prop) ok : Q a → yields (ret a) Q ok.
Proof. by intros Ha w. Qed.

Lemma yields_bind {A B} (m : M A) (f : A → M B) Q R ok :
  yields m Q ok → (∀ a, Q a → yields (f a) R ok) → yields (bind m f) R ok.
Proof.
  intros Hm Hf w. specialize (Hm w). cbn [bind].
  destruct (m w) as [a w'| |]; [|done..]. by apply Hf.
Qed.

Lemma yields_weaken {A} (m : M A) (Q Q' : A → Prop) ok :
  yields m Q ok → (∀ a, Q a → Q' a) → yields m Q' ok.
Proof. intros Hm HQ w. specialize (Hm w). destruct (m w); auto. Qed.

Lemma yields_print line ok : yields (print line) (λ _, True) ok.
Proof. by intros w. Qed.

Lemma yields_input {B} prompt (g : string → B) (ok : exn → Prop) :
  ok EOFError → yields (line <- input prompt;; ret (g line)) (λ _, True) ok.
Proof. intros Hok [[|line rest] st on lg]; by cbn. Qed.

Lemma yields_exists key ok : yields (r.exists_ key) (λ _, True) ok.
Proof. by intros w. Qed.

Lemma yields_srem key member ok : yields (r.srem key member) (λ _, True) ok.
Proof. by intros w. Qed.

Lemma yields_smembers key ok : yields (r.smembers key) (λ _, True) ok.
Proof. by intros w. Qed.

Lemma yields_scard key ok : yields (r.scard key) (λ _, True) ok.
Proof. by intros w. Qed.

(** [SADD] with at least one member is not refused. *)
Lemma yields_sadd key members ok :
  members ≠ [] → yields (r.sadd key members) (λ _, True) ok.
Proof. intros Hms w. by rewrite r_sadd_some. Qed.

Lemma yields_for_each {A} (l : list A) (body : A → M unit) ok :
  (∀ x, yields (body x) (λ _, True) ok) →
  yields (for_each l body) (λ _, True) ok.
Proof.
  intros Hbody. induction l as [|x l IH]; cbn [for_each].
  - by apply yields_ret.
  - eapply yields_bind; [apply Hbody|]. by intros _ _.
Qed.

Create HintDb yields.
#[local] Hint Resolve yields_print yields_input yields_exists yields_srem
  yields_smembers yields_scard yields_sadd yields_for_each : yields.

Ltac yields_step :=
  cbv beta;
  match goal with
  | |- yields (bind (if decide ?φ then _ else _) _) _ _ => destruct (decide φ)
  | |- yields (bind (bind (input _) _) _) _ _ =>
      eapply yields_bind; [solve [eauto with yields]|intros ? ?]
  | |- yields (bind (for_each _ _) _) _ _ =>
      eapply yields_bind; [apply yields_for_each; intros ?|intros ? ?]
  | |- yields (bind _ _) _ _ =>
      eapply yields_bind; [solve [eauto with yields]|intros ? ?]
  | |- yields (if decide ?φ then _ else _) _ _ => destruct (decide φ)
  | |- yields (ret _) _ _ => apply yields_ret; cbv beta; try exact I
  | |- yields _ (λ _, True) _ =>
      solve [eauto with yields
            |eapply yields_weaken; [solve [eauto with yields]|done]]
  end.

Ltac yields_steps := repeat yields_step.

(** A pass of the sub-menu ends the loop exactly when the choice is 4. *)
Lemma update_choice_flow key choice :
  yields (update_choice key choice) (λ f, f = Break ↔ choice = 4) (λ _, True).
Proof.
  unfold update_choice. yields_steps; try done; try (split; [done|lia]).
Qed.

(** X9: a pass of the update sub-menu is over only after a selection
    between 1 and 4 has been read, rejected lines before it being asked for
    again, and it ends the sub-menu loop exactly when that selection is 4;
    the exit pass itself sends nothing to Redis, leaves the database alone
    and reads no line beyond the selection. *)
Theorem update_menu_ends_on_exit key w f w' :
  update_menu key w = Done f w' →
  ∃ bad line rest v,
    stdin w = bad ++ line :: rest ∧
    Forall (rejected (Some 1) (Some 4)) bad ∧
    int (strip line) = Some v ∧ 1 ≤ v ≤ 4 ∧ (f = Break ↔ v = 4) ∧
    (v = 4 →
     stdin w' = rest ∧ db w' = db w ∧ calls (log w') = calls (log w)).
Proof.
  unfold update_menu. run.
  intros (v & w1 & Hget & Hchoice)%bind_inv.
  apply get_int_inv in Hget
    as (bad & line & Hin & Hbad & Hint & [Hmin Hmax] & Hdb & _ & evs & Hlog & Hcalls).
  cbn [stdin db log] in *.
  exists bad, line, (stdin w1), v.
  split; [done|]. split; [done|]. split; [done|].
  split; [split; [by apply Hmin|by apply Hmax]|]. split.
  - pose proof (update_choice_flow key v w1) as Hflow.
    by rewrite Hchoice in Hflow.
  - intros ->. destruct w1 as [inp1 st1 on1 lg1]. cbn [stdin db log] in *.
    rewrite update_choice_exit in Hchoice. injection Hchoice as _ <-.
    cbn [stdin db log]. split; [done|]. split; [done|].
    rewrite Hlog, !calls_app, Hcalls. cbn [calls omap].
    by rewrite !app_nil_r.
Qed.

Lemma update_menu_ends_on_exit_witness :
  let w := fresh ["0"; " 4 "; "6"] {["colors" := {["red"]}]} in
  ∃ f w' bad line rest v,
    update_menu "colors" w = Done f w' ∧
    stdin w = bad ++ line :: rest ∧
    Forall (rejected (Some 1) (Some 4)) bad ∧
    int (strip line) = Some v ∧ 1 ≤ v ≤ 4 ∧ (f = Break ↔ v = 4).
Proof.
  intros w.
  destruct (update_menu "colors" w) as [f w'| |] eqn:Hrun;
    [|by vm_compute in Hrun..].
  destruct (update_menu_ends_on_exit "colors" w f w' Hrun)
    as (bad & line & rest & v & Hin & Hbad & Hint & Hv & Hf & _).
  exists f, w', bad, line, rest, v. by repeat split; try apply Hv; try apply Hf.
Defined.

(** X10: the remove-all choice on a key that has no members (as after an
    earlier remove-all in the same session) fetches the members, reports
    that there is nothing to remove and sends no [SREM]; the cardinality it
    reads is 0 and the database is as it was. *)
Theorem update_menu_remove_all_empty key w bad cline rest :
  stdin w = bad ++ cline :: rest →
  Forall (rejected (Some 1) (Some 4)) bad →
  int (strip cline) = Some 3 →
  smembers key (db w) = ∅ →
  ∃ evs, calls evs = [] ∧
    update_menu key w
    = Done Continue
        (after w rest (db w)
           (evs ++ [Print [Lit "Removing all set members..."];
                    Call (SMEMBERS key) (Members ∅);
                    Print [Lit "Set already has no members."];
                    Call (SCARD key) (Int 0);
                    Print [Lit "The cardinality of the set is now: "; Num 0]])).
Proof.
  destruct w as [inp st on lg]. intros Hin Hbad Hint Hempty.
  cbn [stdin db] in *. subst inp.
  destruct (update_menu_selects key on bad cline rest st lg 3
              Hbad Hint) as (evs & Hcalls & ->); [lia|].
  exists evs. split; [done|].
  rewrite update_choice_remove_all_empty by done.
  unfold after. cbn [stdin db online log]. by rewrite <- app_assoc.
Qed.

Lemma update_menu_remove_all_empty_witness :
  let w := fresh ["3"] {["colors" := {["red"]}]} in
  ∃ evs, calls evs = [] ∧
    update_menu "shapes" w
    = Done Continue
        (after w [] (db w)
           (evs ++ [Print [Lit "Removing all set members..."];
                    Call (SMEMBERS "shapes") (Members ∅);
                    Print [Lit "Set already has no members."];
                    Call (SCARD "shapes") (Int 0);
                    Print [Lit "The cardinality of the set is now: "; Num 0]])).
Proof.
  intros w. apply (update_menu_remove_all_empty "shapes" w [] "3" []).
  - reflexivity.
  - constructor.
  - reflexivity.
  - reflexivity.
Defined.

(** X11: a whole update session that adds one member and leaves: for a key
    that exists, the selection 1, a member and the selection 4 make the
    operation send [EXISTS], one [SADD] with that member and one [SCARD],
    and nothing else; it returns with the member in the set, the other
    keys untouched and the following lines still on the console. *)
Theorem update_set_members_add_and_exit w kline aline mline xline rest :
  stdin w = kline :: aline :: mline :: xline :: rest →
  strip kline ≠ "" → is_Some (db w !! strip kline) →
  int (strip aline) = Some 1 → strip mline ≠ "" →
  int (strip xline) = Some 4 →
  let key := strip kline in
  let member := strip mline in
  ∃ w',
    update_set_members w = Done tt w' ∧
    stdin w' = rest ∧
    calls (log w')
    = calls (log w)
      ++ [(EXISTS key, Int 1);
          (SADD key [member], Int (sadd key [member] (db w)).1);
          (SCARD key, Int (scard key (sadd key [member] (db w)).2))] ∧
    smembers key (db w') = smembers key (db w) ∪ {[member]} ∧
    ∀ key', key' ≠ key → db w' !! key' = db w !! key'.
Proof.
  destruct w as [inp st on lg]. intros Hin Hk Hsome Hadd Hm Hexit key member.
  cbn [stdin db log] in *. subst inp.
  rewrite (update_set_members_enters key) by done. cbn [length].
  match goal with
  | |- context [while_true _ _ (World _ _ _ ?lg')] =>
      destruct (update_menu_selects key on [] aline (mline :: xline :: rest)
                  st lg' 1 (Forall_nil_2 _) Hadd) as (evs1 & Hc1 & Hpass1); [lia|]
  end.
  rewrite update_choice_add in Hpass1 by done.
  cbn [app] in Hpass1. rewrite (while_true_continue _ _ _ _ Hpass1).
  match goal with
  | |- context [while_true _ _ (World _ ?st' _ ?lg')] =>
      destruct (update_menu_selects key on [] xline rest
                  st' lg' 4 (Forall_nil_2 _) Hexit) as (evs2 & Hc2 & Hpass2); [lia|]
  end.
  rewrite update_choice_exit in Hpass2.
  cbn [app] in Hpass2. rewrite (while_true_break _ _ _ _ Hpass2).
  eexists. split; [reflexivity|]. cbn [stdin db log].
  split; [done|]. split; [|split].
  - rewrite !calls_app, Hc1, Hc2.
    change (calls [Print [Lit "Exiting Update Menu..."]]) with (@nil (command * reply)).
    rewrite !app_nil_r, <- !app_assoc. f_equal.
  - unfold sadd. cbn [snd list_to_set]. rewrite smembers_insert.
    by rewrite (right_id_L ∅ (∪)).
  - intros key' Hne. unfold sadd. cbn [snd]. by rewrite lookup_insert_ne.
Qed.

Lemma update_set_members_add_and_exit_witness :
  let w := fresh ["colors"; "1"; "blue"; "4"; "6"] {["colors" := {["red"]}]} in
  ∃ w',
    update_set_members w = Done tt w' ∧
    stdin w' = ["6"] ∧
    smembers "colors" (db w') = smembers "colors" (db w) ∪ {["blue"]}.
Proof.
  intros w.
  destruct (update_set_members_add_and_exit w "colors" "1" "blue" "4" ["6"])
    as (w' & Hrun & Hin & _ & Hs & _).
  - reflexivity.
  - by vm_compute.
  - vm_compute. eexists. reflexivity.
  - reflexivity.
  - by vm_compute.
  - reflexivity.
  - exists w'. split; [exact Hrun|]. split; [exact Hin|exact Hs].
Defined.

(** X12: after an update session has removed all members of a set and has
    been left, the key is gone: a query of it reports that the key does
    not exist, not a set without members. *)
Theorem remove_all_then_query w kline cline xline qline rest :
  stdin w = kline :: cline :: xline :: qline :: rest →
  strip kline ≠ "" → smembers (strip kline) (db w) ≠ ∅ →
  int (strip cline) = Some 3 → int (strip xline) = Some 4 →
  strip qline = strip kline →
  let key := strip kline in
  ∃ w1,
    update_set_members w = Done tt w1 ∧
    db w1 = delete key (db w) ∧
    retrieve_set_members w1
    = Done tt
        (after w1 rest (db w1)
           [Prompt "Enter the key you wish to query: ";
            Call (EXISTS key) (Int 0);
            Print [Lit "Key '"; Str key; Lit "' does not exist."]]).
Proof.
  destruct w as [inp st on lg].
  intros Hin Hk Hne Hall Hexit Hq key.
  cbn [stdin db log] in *. subst inp.
  assert (is_Some (st !! key)) as Hsome
    by (unfold key; rewrite (smembers_nonempty _ _ Hne); eauto).
  rewrite (update_set_members_enters key) by done.
  cbn [length].
  match goal with
  | |- context [while_true _ _ (World _ _ _ ?lg')] =>
      destruct (update_menu_selects key on [] cline (xline :: qline :: rest)
                  st lg' 3 (Forall_nil_2 _) Hall) as (evs1 & Hc1 & Hpass1); [lia|]
  end.
  rewrite update_choice_remove_all in Hpass1 by done.
  cbn [app] in Hpass1. rewrite (while_true_continue _ _ _ _ Hpass1).
  match goal with
  | |- context [while_true _ _ (World _ ?st' _ ?lg')] =>
      destruct (update_menu_selects key on [] xline (qline :: rest)
                  st' lg' 4 (Forall_nil_2 _) Hexit) as (evs2 & Hc2 & Hpass2); [lia|]
  end.
  rewrite update_choice_exit in Hpass2.
  cbn [app] in Hpass2. rewrite (while_true_break _ _ _ _ Hpass2).
  eexists. split; [reflexivity|]. cbn [db]. split; [done|].
  rewrite retrieve_set_members_absent.
  - unfold after. cbn [stdin db online log]. by rewrite Hq.
  - by rewrite Hq.
  - rewrite Hq. apply lookup_delete_eq.
Qed.

Lemma remove_all_then_query_witness :
  let w := fresh ["colors"; "3"; "4"; "colors"] {["colors" := {["red"; "blue"]}]} in
  ∃ w1,
    update_set_members w = Done tt w1 ∧
    db w1 = delete "colors" (db w) ∧
    retrieve_set_members w1
    = Done tt
        (after w1 [] (db w1)
           [Prompt "Enter the key you wish to query: ";
            Call (EXISTS "colors") (Int 0);
            Print [Lit "Key '"; Str "colors"; Lit "' does not exist."]]).
Proof.
  intros w.
  apply (remove_all_then_query w "colors" "3" "4" "colors" []).
  - reflexivity.
  - by vm_compute.
  - by vm_compute.
  - reflexivity.
  - reflexivity.
  - reflexivity.
Defined.

(** ** The program as a whole *)

(** With a server that answers, the program enters its menu loop. *)
Lemma main_enters inp st lg :
  main (World inp st true lg)
  = while_true (S (length inp)) main_menu
      (World inp st true
         (lg ++ [Print [Lit "System Date/Time:"; Lit " "; Now];
                 Print [Lit "Connecting to local Redis database..."];
                 Call PING Ok;
                 Print [Lit "Redis connection successful."]])).
Proof. unfold main, connect_to_redis. run. by rewrite <- !app_assoc. Qed.

(** X14: when the server does not answer the first [PING], the program
    reports that it could not connect and ends with [ConnectionError]: the
    menu is never shown, no line is read from the console, and nothing but
    that [PING] is sent. *)
Theorem main_server_down w :
  online w = false →
  main w
  = Raised ConnectionError
      (after w (stdin w) (db w)
         [Print [Lit "System Date/Time:"; Lit " "; Now];
          Print [Lit "Connecting to local Redis database..."];
          Call PING Error;
          Print [Lit "ERROR: Could not connect to Redis. Make sure Redis is running."]]).
Proof.
  destruct w as [inp st on lg]. cbn [online stdin db]. intros ->.
  unfold main, connect_to_redis, after. run. by rewrite <- !app_assoc.
Qed.

Lemma main_server_down_witness :
  let w := {| stdin := ["2"; "colors"]; db := ∅; online := false; log := [] |} in
  main w
  = Raised ConnectionError
      (after w ["2"; "colors"] ∅
         [Print [Lit "System Date/Time:"; Lit " "; Now];
          Print [Lit "Connecting to local Redis database..."];
          Call PING Error;
          Print [Lit "ERROR: Could not connect to Redis. Make sure Redis is running."]]).
Proof. intros w. apply (main_server_down w). reflexivity. Defined.

Lemma main_choice_exit w :
  main_choice 6 w = Done Break (emit (Print [Lit "Exiting program..."]) w).
Proof.
  unfold main_choice. rewrite !(decide_False (P := 6 = _)) by done.
  by rewrite decide_True.
Qed.

(** X15: with a server that answers, the selection 6, possibly after
    rejected selections, ends the program normally: nothing but the first
    [PING] has been sent, the database is as it was, the lines after the
    selection are left unread, and the last line printed is the farewell. *)
Theorem main_exits_on_six w bad line rest :
  online w = true →
  stdin w = bad ++ line :: rest →
  Forall (rejected (Some 1) (Some 6)) bad →
  int (strip line) = Some 6 →
  ∃ evs,
    main w
    = Done tt (after w rest (db w) (evs ++ [Print [Lit "Exiting program..."]])) ∧
    calls evs = [(PING, Ok)].
Proof.
  destruct w as [inp st on lg]. cbn [online stdin db]. intros -> -> Hbad Hint.
  rewrite main_enters.
  match goal with
  | |- context [while_true _ _ (World _ _ _ ?lg')] =>
      destruct (main_menu_selects bad line rest st true lg' 6 Hbad Hint)
        as (evs & Hcalls & Hpass); [lia|]
  end.
  rewrite main_choice_exit in Hpass.
  rewrite (while_true_break _ _ _ _ Hpass).
  exists ([Print [Lit "System Date/Time:"; Lit " "; Now];
           Print [Lit "Connecting to local Redis database..."];
           Call PING Ok;
           Print [Lit "Redis connection successful."]] ++ evs).
  split.
  - unfold after, emit. cbn [stdin db online log].
    by rewrite <- !app_assoc.
  - by rewrite calls_app, Hcalls.
Qed.

Lemma main_exits_on_six_witness :
  let w := fresh ["x"; "6"; "2"] {["colors" := {["red"]}]} in
  ∃ evs,
    main w
    = Done tt (after w ["2"] (db w) (evs ++ [Print [Lit "Exiting program..."]])) ∧
    calls evs = [(PING, Ok)].
Proof.
  intros w. apply (main_exits_on_six w ["x"] "6" ["2"]).
  - reflexivity.
  - reflexivity.
  - repeat constructor. intros v Hv. by vm_compute in Hv.
  - reflexivity.
Defined.

Lemma while_main_menu_done fuel w w' :
  while_true fuel main_menu w = Done tt w' →
  last (log w') = Some (Print [Lit "Exiting program..."]).
Proof.
  revert w. induction fuel as [|fuel IH]; intros w; [done|].
  cbn [while_true]. intros ([|] & w1 & Hpass & Hrest)%bind_inv.
  - by eapply IH.
  - injection Hrest as <-. unfold main_menu in Hpass.
    repeat (apply bind_inv in Hpass as (? & ? & _ & Hpass)).
    pose proof (proj1 (main_choice_flow _ _ _ _ Hpass) eq_refl) as ->.
    rewrite main_choice_exit in Hpass. injection Hpass as <-.
    cbn [emit log]. by rewrite last_snoc.
Qed.

(** X16: the program ends normally in one way only, through the selection
    6: whenever it returns, the server had answered and the last line it
    printed is the farewell. *)
Theorem main_returns_after_farewell w w' :
  main w = Done tt w' →
  online w = true ∧ last (log w') = Some (Print [Lit "Exiting program..."]).
Proof.
  destruct w as [inp st [|] lg]; cbn [online]; [|done].
  rewrite main_enters. intros Hloop. split; [done|].
  by eapply while_main_menu_done.
Qed.

Lemma main_returns_after_farewell_witness :
  let w := fresh ["4"; "colors"; "6"] {["colors" := {["red"]}]} in
  ∃ w', main w = Done tt w' ∧
        last (log w') = Some (Print [Lit "Exiting program..."]).
Proof.
  intros w.
  destruct (main w) as [[] w'| |] eqn:Hrun; [|by vm_compute in Hrun..].
  exists w'. split; [reflexivity|].
  exact (proj2 (main_returns_after_farewell w w' Hrun)).
Defined.

(** ** What an operation leaves alone *)

Lemma triple_collect_members P count members :
  stable P → triple P (collect_members count members) (λ _, P) P.
Proof.
  intros HP. revert members.
  induction count as [|count IH]; intros members; cbn [collect_members].
  - apply triple_ret_stay.
  - eapply triple_bind; [by apply triple_input|]. intros member.
    destruct (decide (member = "")); [|apply IH].
    eapply triple_bind; [by apply triple_print|]. intros [].
    apply triple_ret_stay.
Qed.

Section frame.
Context (k : string) (v : option (gset string)).

Lemma frame_stable : stable (λ w, db w !! k = v).
Proof. intros w w' (Hdb & _) Hw. by rewrite Hdb. Qed.

Lemma frame_exists key E :
  triple (λ w, db w !! k = v) (r.exists_ key) (λ _ w, db w !! k = v) E.
Proof. intros w Hw. exact Hw. Qed.

Lemma frame_smembers key E :
  triple (λ w, db w !! k = v) (r.smembers key) (λ _ w, db w !! k = v) E.
Proof. intros w Hw. exact Hw. Qed.

Lemma frame_scard key E :
  triple (λ w, db w !! k = v) (r.scard key) (λ _ w, db w !! k = v) E.
Proof. intros w Hw. exact Hw. Qed.

Lemma frame_sadd key members :
  key ≠ k →
  triple (λ w, db w !! k = v) (r.sadd key members) (λ _ w, db w !! k = v)
    (λ w, db w !! k = v).
Proof.
  intros Hne w Hw. unfold wp, r.sadd. destruct members; [exact Hw|].
  cbn. by rewrite lookup_insert_ne.
Qed.

Lemma frame_srem key member E :
  key ≠ k →
  triple (λ w, db w !! k = v) (r.srem key member) (λ _ w, db w !! k = v) E.
Proof.
  intros Hne w Hw. unfold wp. cbn. unfold srem.
  destruct (decide (member ∈ _)); [|exact Hw]. cbn [snd].
  destruct (decide (_ = ∅)).
  - by rewrite lookup_delete_ne.
  - by rewrite lookup_insert_ne.
Qed.

Lemma frame_delete key E :
  key ≠ k →
  triple (λ w, db w !! k = v) (r.delete key) (λ _ w, db w !! k = v) E.
Proof.
  intros Hne w Hw. unfold wp. cbn. unfold del.
  destruct (decide _); [|exact Hw]. cbn [snd]. by rewrite lookup_delete_ne.
Qed.

End frame.

#[local] Hint Resolve frame_stable frame_exists frame_smembers frame_scard
  frame_sadd frame_srem frame_delete triple_collect_members : runs.

(** An operation that starts by reading its key leaves every other key
    alone when its body does, whatever the key. *)
Lemma keyed_frame prompt (body : string → M unit) k w w' :
  (∀ key v, key ≠ k →
     triple (λ w, db w !! k = v) (body key) (λ _ w, db w !! k = v)
       (λ w, db w !! k = v)) →
  ending ((key <- (line <- input prompt;; ret (strip line));; body key) w)
  = Some w' →
  (∀ line rest, stdin w = line :: rest → strip line ≠ k) →
  db w' !! k = db w !! k.
Proof.
  intros Hbody. destruct w as [[|line rest] st on lg]; run.
  - by intros [= <-] _.
  - intros Hend Hne. specialize (Hne line rest eq_refl).
    cbn [db].
    by destruct (wp_ending _ _ _ _ w' (Hbody (strip line) (st !! k) Hne _ eq_refl)
                   Hend) as [[_ ?]|?].
Qed.

(** X17: the query, create, update and delete operations work on the key
    they read and on no other: whatever the rest of the input and however
    the operation ends, every key different from the stripped first line
    holds afterwards what it held before. *)
Theorem keyed_operations_touch_one_key op w w' k :
  op ∈ [retrieve_set_members; create_new_set; update_set_members; delete_set] →
  ending (op w) = Some w' →
  (∀ line rest, stdin w = line :: rest → strip line ≠ k) →
  db w' !! k = db w !! k.
Proof.
  intros Hop.
  repeat (apply elem_of_cons in Hop as [->|Hop]).
  - apply keyed_frame. intros key v Hne. unfold format_members. triple_steps.
  - apply keyed_frame. intros key v Hne. triple_steps.
    match goal with |- triple _ (match ?x with _ => _ end) _ _ =>
      destruct x end; triple_steps.
  - apply keyed_frame. intros key v Hne. triple_steps.
    unfold update_menu. triple_steps. unfold update_choice. triple_steps.
  - apply keyed_frame. intros key v Hne. triple_steps.
  - by apply elem_of_nil in Hop.
Qed.

Lemma keyed_operations_touch_one_key_witness :
  let w := fresh ["colors"; "3"; "4"]
             {["colors" := {["red"]}; "shapes" := {["round"]}]} in
  ∃ w', ending (update_set_members w) = Some w' ∧
        db w' !! "shapes" = db w !! "shapes".
Proof.
  intros w.
  destruct (operations_end update_set_members w) as [w' Hend].
  { do 2 apply list_elem_of_further. apply list_elem_of_here. }
  exists w'. split; [exact Hend|].
  apply (keyed_operations_touch_one_key update_set_members w w' "shapes").
  - do 2 apply list_elem_of_further. apply list_elem_of_here.
  - exact Hend.
  - intros line rest [= <- _]. by vm_compute.
Defined.

(** ** Which commands an operation sends *)

Section added.
Context (φ : command → Prop) (lg0 : list event).

Lemma added_stable : stable (added φ lg0).
Proof.
  intros w w' (_ & _ & evs' & Hlog & Hcalls) (evs & Hw & Hsends).
  exists (evs ++ evs'). split; [by rewrite Hlog, Hw, app_assoc|].
  unfold sends. by rewrite calls_app, Hcalls, app_nil_r.
Qed.

Lemma added_call w inp st' on c r :
  added φ lg0 w → φ c →
  added φ lg0
    {| stdin := inp; db := st'; online := on; log := log w ++ [Call c r] |}.
Proof.
  intros (evs & Hw & Hsends) Hc. exists (evs ++ [Call c r]). cbn [log].
  split; [by rewrite Hw, app_assoc|].
  unfold sends. rewrite calls_app. apply Forall_app. split; [done|].
  by repeat constructor.
Qed.

Lemma added_exists key E :
  φ (EXISTS key) →
  triple (added φ lg0) (r.exists_ key) (λ _, added φ lg0) E.
Proof. intros Hc w Hw. by apply added_call. Qed.

Lemma added_smembers key E :
  φ (SMEMBERS key) →
  triple (added φ lg0) (r.smembers key) (λ _, added φ lg0) E.
Proof. intros Hc w Hw. by apply added_call. Qed.

Lemma added_scard key E :
  φ (SCARD key) →
  triple (added φ lg0) (r.scard key) (λ _, added φ lg0) E.
Proof. intros Hc w Hw. by apply added_call. Qed.

Lemma added_srem key member E :
  φ (SREM key member) →
  triple (added φ lg0) (r.srem key member) (λ _, added φ lg0) E.
Proof. intros Hc w Hw. by apply added_call. Qed.

Lemma added_delete key E :
  φ (DEL key) →
  triple (added φ lg0) (r.delete key) (λ _, added φ lg0) E.
Proof. intros Hc w Hw. by apply added_call. Qed.

Lemma added_flushdb E :
  φ FLUSHDB →
  triple (added φ lg0) r.flushdb (λ _, added φ lg0) E.
Proof. intros Hc w Hw. by apply added_call. Qed.

Lemma added_sadd key members :
  φ (SADD key members) →
  triple (added φ lg0) (r.sadd key members) (λ _, added φ lg0) (added φ lg0).
Proof.
  intros Hc w Hw. unfold wp, r.sadd.
  destruct members; by apply added_call.
Qed.

Lemma added_connect_to_redis :
  φ PING →
  triple (added φ lg0) connect_to_redis (λ _, added φ lg0) (added φ lg0).
Proof.
  intros Hc [inp st on lg] (evs & Hw & Hsends). cbn [log] in Hw. subst lg.
  unfold wp, connect_to_redis. run.
  destruct on; run.
  - exists (evs ++ [Print [Lit "Connecting to local Redis database..."];
                    Call PING Ok;
                    Print [Lit "Redis connection successful."]]).
    cbn [log]. split; [by rewrite <- !app_assoc|].
    unfold sends. rewrite calls_app. apply Forall_app. split; [done|].
    by repeat constructor.
  - exists (evs ++ [Print [Lit "Connecting to local Redis database..."];
                    Call PING Error;
                    Print [Lit "ERROR: Could not connect to Redis. Make sure Redis is running."]]).
    cbn [log]. split; [by rewrite <- !app_assoc|].
    unfold sends. rewrite calls_app. apply Forall_app. split; [done|].
    by repeat constructor.
Qed.

End added.

Lemma added_refl φ w : added φ (log w) w.
Proof. exists []. split; [by rewrite app_nil_r|]. constructor. Qed.

#[local] Hint Resolve added_stable added_exists added_smembers added_scard
  added_srem added_delete added_flushdb added_sadd : runs.
#[local] Hint Extern 1 (named _ _) =>
  unfold named; cbn [verb]; repeat constructor : runs.

(** X18: each operation sends only the commands of its own kind: the
    query [EXISTS], [SMEMBERS] and [SCARD]; the create operation [SADD]
    and [SCARD]; the update operation [EXISTS], [SADD], [SREM], [SMEMBERS]
    and [SCARD]; the delete operation [DEL]; the deletion of all data
    [FLUSHDB].  However the operation ends, normally or not, its log is
    the log it started from followed by events whose commands are all of
    that kind.  So of the five operations only the delete operation sends
    a [DEL], and only the deletion of all data sends a [FLUSHDB].

    This is about the commands sent, not about which keys exist
    afterwards: the update operation makes a key disappear without any
    [DEL], by removing the last member of its set with [SREM]. *)
Theorem operations_footprint op names w w' :
  (op, names) ∈ footprint → ending (op w) = Some w' →
  ∃ evs,
    log w' = log w ++ evs ∧ sent_only names evs ∧
    (∀ key r, (DEL key, r) ∈ calls evs → op = delete_set) ∧
    (∀ r, (FLUSHDB, r) ∈ calls evs → op = delete_all_data).
Proof.
  intros Hop Hend.
  assert (triple (added (named names) (log w)) op
            (λ _, added (named names) (log w)) (added (named names) (log w)))
    as Htriple.
  { unfold footprint in Hop.
    repeat (apply elem_of_cons in Hop as [[= -> ->]|Hop]).
    - unfold retrieve_set_members, format_members. triple_steps.
    - unfold create_new_set. triple_steps.
      match goal with |- triple _ (match ?x with _ => _ end) _ _ =>
        destruct x end; triple_steps.
    - unfold update_set_members. triple_steps.
      unfold update_menu. triple_steps. unfold update_choice. triple_steps.
    - unfold delete_set. triple_steps.
    - unfold delete_all_data. triple_steps.
    - by apply elem_of_nil in Hop. }
  assert (added (named names) (log w) w') as (evs & Hlog & Hsends).
  { by destruct (wp_ending _ _ _ w w' (Htriple w (added_refl _ w)) Hend)
      as [[_ ?]|?]. }
  exists evs. split; [done|]. split; [exact Hsends|].
  unfold sends, named in Hsends. rewrite Forall_forall in Hsends.
  unfold footprint in Hop.
  split.
  - intros key r Hin. specialize (Hsends _ Hin). cbn [fst verb] in Hsends.
    repeat (apply elem_of_cons in Hop as [[= -> ->]|Hop]);
      try reflexivity;
      try (repeat (apply elem_of_cons in Hsends as [Hsends|Hsends];
                   [discriminate|]);
           by apply elem_of_nil in Hsends).
    by apply elem_of_nil in Hop.
  - intros r Hin. specialize (Hsends _ Hin). cbn [fst verb] in Hsends.
    repeat (apply elem_of_cons in Hop as [[= -> ->]|Hop]);
      try reflexivity;
      try (repeat (apply elem_of_cons in Hsends as [Hsends|Hsends];
                   [discriminate|]);
           by apply elem_of_nil in Hsends).
    by apply elem_of_nil in Hop.
Qed.

Lemma operations_footprint_witness :
  let w := fresh ["colors"; "3"; "4"] {["colors" := {["red"; "blue"]}]} in
  ∃ w', ending (update_set_members w) = Some w' ∧
    ∃ evs,
      log w' = log w ++ evs ∧
      sent_only ["EXISTS"; "SADD"; "SREM"; "SMEMBERS"; "SCARD"] evs ∧
      (∀ key r, (DEL key, r) ∈ calls evs → update_set_members = delete_set) ∧
      (∀ r, (FLUSHDB, r) ∈ calls evs → update_set_members = delete_all_data).
Proof.
  intros w.
  destruct (operations_end update_set_members w) as [w' Hend].
  { do 2 apply list_elem_of_further. apply list_elem_of_here. }
  exists w'. split; [exact Hend|].
  apply (operations_footprint update_set_members _ w w').
  - do 2 apply list_elem_of_further. apply list_elem_of_here.
  - exact Hend.
Defined.

(** ** The create operation adds all members or none *)

Lemma triple_get_int_bounds P prompt mn mx :
  stable P →
  triple P (get_int prompt mn mx) (λ v w, P w ∧ in_bounds mn mx v) P.
Proof.
  intros HP w Hw. pose proof (get_int_quiet prompt mn mx w) as Hq.
  unfold wp in *.
  destruct (get_int prompt mn mx w) as [v w'| |] eqn:Hrun; [|by eapply HP|done].
  split; [by eapply HP|]. by eapply get_int_bounds.
Qed.

Lemma triple_collect_members_length P count members :
  stable P →
  triple P (collect_members count members)
    (λ res w, P w ∧
              ∀ ms, res = Some ms → length ms = (length members + count)%nat)
    P.
Proof.
  intros HP. revert members.
  induction count as [|count IH]; intros members; cbn [collect_members].
  - intros w Hw. split; [done|]. intros ms [= <-]. lia.
  - eapply triple_bind; [by apply triple_input|]. intros member.
    destruct (decide (member = "")).
    + eapply triple_bind; [by apply triple_print|]. intros [] w Hw.
      split; [done|]. by intros ms [=].
    + eapply triple_conseq; [apply IH|done| |done].
      intros res w [Hw Hres]. split; [done|]. intros ms Hms.
      rewrite (Hres ms Hms), length_app. cbn. lia.
Qed.

(** X19: the create operation is all or nothing.  However it ends (with
    its report, with the message of a blank key or member, or because the
    console ran dry before all members were typed), either it has sent
    nothing to Redis and the database is as it was, or it has sent exactly
    one [SADD] with at least one member followed by one [SCARD], and the
    database is what that [SADD] made of it. *)
Theorem create_new_set_all_or_nothing w w' :
  ending (create_new_set w) = Some w' →
  (db w' = db w ∧ calls (log w') = calls (log w)) ∨
  (∃ key members,
     key ≠ "" ∧ members ≠ [] ∧
     db w' = (sadd key members (db w)).2 ∧
     calls (log w')
     = calls (log w)
       ++ [(SADD key members, Int (sadd key members (db w)).1);
           (SCARD key, Int (scard key (sadd key members (db w)).2))]).
Proof.
  intros Hend.
  set (nothing := λ w0 : world, db w0 = db w ∧ calls (log w0) = calls (log w)).
  set (all := λ w0 : world,
         ∃ key members,
           key ≠ "" ∧ members ≠ [] ∧
           db w0 = (sadd key members (db w)).2 ∧
           calls (log w0)
           = calls (log w)
             ++ [(SADD key members, Int (sadd key members (db w)).1);
                 (SCARD key, Int (scard key (sadd key members (db w)).2))]).
  assert (∀ w0, quiet w w0 → nothing w0) as Hquiet.
  { intros w0 (Hdb & _ & evs & Hlog & Hcalls). split; [done|].
    by rewrite Hlog, calls_app, Hcalls, app_nil_r. }
  assert (stable (quiet w)) as Hstable.
  { intros w1 w2 H12 H1. by eapply quiet_trans. }
  assert (triple (quiet w) create_new_set
            (λ _ w0, nothing w0 ∨ all w0) (quiet w)) as Htriple.
  { unfold create_new_set.
    eapply triple_bind; [by apply triple_input|]. intros key.
    destruct (decide (key = "")) as [|Hkey].
    { eapply triple_conseq; [by apply triple_print|done| |done]. cbv beta. auto. }
    eapply triple_bind; [by apply triple_get_int_bounds|]. intros count.
    apply triple_pure. intros [Hmin _]. specialize (Hmin 1 eq_refl).
    eapply triple_bind; [by apply triple_collect_members_length|].
    intros [members|]; apply triple_pure; intros Hlen.
    2:{ intros w0 Hw0. left. by apply Hquiet. }
    specialize (Hlen members eq_refl). cbn [length] in Hlen.
    assert (members ≠ []) as Hms by (intros ->; cbn in Hlen; lia).
    intros [inp0 st0 on0 lg0] (Hdb & _ & evs & Hlog & Hcalls).
    cbn [db log] in Hdb, Hlog. subst st0 lg0.
    unfold wp. run. rewrite r_sadd_some by done. run.
    right. exists key, members. split; [done|]. split; [done|]. split; [done|].
    cbn [log]. rewrite !calls_app, Hcalls. cbn.
    by rewrite !app_nil_r, <- !app_assoc. }
  destruct (wp_ending _ _ _ w w' (Htriple w (quiet_refl w)) Hend)
    as [[_ [Hn|Ha]]|Hq].
  - by left.
  - by right.
  - left. by apply Hquiet.
Qed.

Lemma create_new_set_all_or_nothing_witness :
  let w := fresh ["colors"; "3"; "red"; "green"] {["colors" := {["blue"]}]} in
  ∃ w', ending (create_new_set w) = Some w' ∧
        ((db w' = db w ∧ calls (log w') = calls (log w)) ∨
         (∃ key members,
            key ≠ "" ∧ members ≠ [] ∧
            db w' = (sadd key members (db w)).2 ∧
            calls (log w')
            = calls (log w)
              ++ [(SADD key members, Int (sadd key members (db w)).1);
                  (SCARD key, Int (scard key (sadd key members (db w)).2))])).
Proof.
  intros w.
  destruct (operations_end create_new_set w) as [w' Hend].
  { apply list_elem_of_further, list_elem_of_here. }
  exists w'. split; [exact Hend|].
  exact (create_new_set_all_or_nothing w w' Hend).
Defined.

(** ** No [SADD] without members *)

#[local] Hint Extern 1 (has_members _) => by cbn [has_members] : runs.

Lemma has_members_create_new_set lg0 :
  triple (added has_members lg0) create_new_set
    (λ _, added has_members lg0) (added has_members lg0).
Proof.
  pose proof (added_stable has_members lg0) as Hstable.
  unfold create_new_set.
  eapply triple_bind; [by apply triple_input|]. intros key.
  destruct (decide (key = "")) as [|Hkey]; [by apply triple_print|].
  eapply triple_bind; [by apply triple_get_int_bounds|]. intros count.
  apply triple_pure. intros [Hmin _]. specialize (Hmin 1 eq_refl).
  eapply triple_bind; [by apply triple_collect_members_length|].
  intros [members|]; apply triple_pure; intros Hlen; [|triple_steps].
  specialize (Hlen members eq_refl). cbn [length] in Hlen.
  assert (members ≠ []) as Hms by (intros ->; cbn in Hlen; lia).
  triple_steps.
Qed.

Lemma has_members_operation lg0 op :
  op ∈ [retrieve_set_members; create_new_set; update_set_members; delete_set;
        delete_all_data] →
  triple (added has_members lg0) op
    (λ _, added has_members lg0) (added has_members lg0).
Proof.
  intros Hop. repeat (apply elem_of_cons in Hop as [->|Hop]).
  - unfold retrieve_set_members, format_members. triple_steps.
  - apply has_members_create_new_set.
  - unfold update_set_members. triple_steps.
    unfold update_menu. triple_steps. unfold update_choice. triple_steps.
  - unfold delete_set. triple_steps.
  - unfold delete_all_data. triple_steps.
  - by apply elem_of_nil in Hop.
Qed.

Lemma has_members_main lg0 :
  triple (added has_members lg0) main
    (λ _, added has_members lg0) (added has_members lg0).
Proof.
  unfold main. triple_steps.
  eapply triple_bind; [by apply added_connect_to_redis|]. intros [].
  triple_steps. unfold main_menu. triple_steps. unfold main_choice.
  triple_steps;
    (eapply triple_bind;
     [apply has_members_operation; repeat constructor|intros ?; triple_steps]).
Qed.

(** X13: the program never sends an [SADD] without members, the one
    request of its own making that Redis would refuse.  Whatever is typed
    and however the run ends, every [SADD] among the commands that any of
    the five operations, or the program as a whole, adds to the log names
    at least one member: the create operation asks for a count of at least
    1 and sends nothing unless it has collected that many members, and the
    update operation adds one member at a time. *)
Theorem sadd_always_has_members op w w' :
  op ∈ operations → ending (op w) = Some w' →
  ∃ evs,
    log w' = log w ++ evs ∧
    ∀ key members r, (SADD key members, r) ∈ calls evs → members ≠ [].
Proof.
  intros Hop Hend.
  assert (triple (added has_members (log w)) op
            (λ _, added has_members (log w)) (added has_members (log w)))
    as Htriple.
  { unfold operations in Hop.
    repeat (apply elem_of_cons in Hop as [->|Hop]).
    1-5: apply has_members_operation; repeat constructor.
    - apply has_members_main.
    - by apply elem_of_nil in Hop. }
  assert (added has_members (log w) w') as (evs & Hlog & Hsends).
  { by destruct (wp_ending _ _ _ w w' (Htriple w (added_refl _ w)) Hend)
      as [[_ ?]|?]. }
  exists evs. split; [done|]. intros key members r Hin.
  unfold sends in Hsends. rewrite Forall_forall in Hsends.
  exact (Hsends _ Hin).
Qed.

Lemma sadd_always_has_members_witness :
  let w := fresh ["2"; "colors"; "2"; "red"; "green"; "3"; "colors"; "1";
                  "blue"; "4"; "6"] ∅ in
  ∃ w', ending (main w) = Some w' ∧
    ∃ evs,
      log w' = log w ++ evs ∧
      ∀ key members r, (SADD key members, r) ∈ calls evs → members ≠ [].
Proof.
  intros w.
  destruct (operations_end main w) as [w' Hend].
  { do 5 apply list_elem_of_further. apply list_elem_of_here. }
  exists w'. split; [exact Hend|].
  apply (sadd_always_has_members main w w').
  - do 5 apply list_elem_of_further. apply list_elem_of_here.
  - exact Hend.
Defined.
